(** * Web-Proxy-Server: the connection-handling engine of [main.py]

    A shallow embedding of [WebProxyServer] (request parsing helpers, the
    forwarding client, the cache and revalidation logic of [handle_request],
    the HTTPS relay) and the properties of it that the specification states.

    Modelling choices.
    - A Python [str] is a list of Unicode code points ([N]); a Python
      [bytes] is a list of 8-bit characters ([ascii]).  [decode] and
      [encode] are strict UTF-8.
    - Sockets, the clock and the log are effects: every socket call is
      recorded as an [event]; what a [recv] or a [select] returns is read
      from an [environment].  A [send] event records the buffer handed to
      [socket.send].  Socket calls themselves are taken not to raise.
    - Python exceptions are values of [exn]; a computation ends with
      [Ok v], with [Raise e], or with [Block] when it waits for ever on a
      peer that neither sends nor closes.
    - [self.cache] is a finite map, [self.blocked_urls] a finite set. *)

From Stdlib Require Import NArith ZArith Ascii String List Lia.
From stdpp Require Import base decidable option list gmap.

Local Open Scope N_scope.

(** ** Outcomes of Python code *)

Inductive exn : Type :=
  | IndexError
  | KeyError
  | ValueError
  | TypeError
  | AttributeError
  | UnicodeDecodeError
  | UnicodeEncodeError.

Inductive outcome (A : Type) : Type :=
  | Ok (a : A)
  | Raise (e : exn)
  | Block.

Arguments Ok {A} a.
Arguments Raise {A} e.
Arguments Block {A}.

Global Instance outcome_ret : MRet outcome := fun A a => Ok a.

Global Instance outcome_bind : MBind outcome := fun A B k o =>
  match o with
  | Ok a => k a
  | Raise e => Raise e
  | Block => Block
  end.

(** ** Sequences: the [str] and [bytes] methods the server uses *)

Section Sequences.
Context {A : Type} `{EqDecision A}.

(** [s.startswith(p)] *)
Fixpoint startswith (s p : list A) {struct p} : bool :=
  match p, s with
  | [], _ => true
  | _ :: _, [] => false
  | x :: p', y :: s' => bool_decide (x = y) && startswith s' p'
  end.

(** [p in s] for sequences: [p] occurs as a contiguous run of [s]. *)
Fixpoint contains (p s : list A) : bool :=
  startswith s p ||
  match s with
  | [] => false
  | _ :: s' => contains p s'
  end.

(** [s.partition(sep)] when [sep] occurs: the text before the first
    occurrence and the text after it. *)
Fixpoint find_sep (sep s : list A) : option (list A * list A) :=
  if startswith s sep then Some ([], drop (length sep) s)
  else match s with
       | [] => None
       | c :: s' =>
           match find_sep sep s' with
           | Some (before, after) => Some (c :: before, after)
           | None => None
           end
       end.

(** [s.split(sep)] for a non-empty [sep]; every cut consumes at least one
    element, so [length s] cuts are enough. *)
Fixpoint split_fuel (n : nat) (sep s : list A) : list (list A) :=
  match n with
  | O => [s]
  | S n' =>
      match find_sep sep s with
      | Some (before, after) => before :: split_fuel n' sep after
      | None => [s]
      end
  end.

Definition split (sep s : list A) : list (list A) :=
  split_fuel (length s) sep s.

(** [s.split(sep, 1)] *)
Definition split1 (sep s : list A) : list (list A) :=
  match find_sep sep s with
  | Some (before, after) => [before; after]
  | None => [s]
  end.

Variable isspace : A -> bool.

(** [s.split()]: the maximal runs of non-whitespace elements. *)
Fixpoint split_ws_aux (cur : list A) (s : list A) : list (list A) :=
  match s with
  | [] => match cur with [] => [] | _ :: _ => [reverse cur] end
  | c :: s' =>
      if isspace c then
        match cur with
        | [] => split_ws_aux [] s'
        | _ :: _ => reverse cur :: split_ws_aux [] s'
        end
      else split_ws_aux (c :: cur) s'
  end.

Definition split_ws (s : list A) : list (list A) := split_ws_aux [] s.

Fixpoint lstrip (s : list A) : list A :=
  match s with
  | [] => []
  | c :: s' => if isspace c then lstrip s' else s
  end.

(** [s.strip()] *)
Definition strip (s : list A) : list A :=
  reverse (lstrip (reverse (lstrip s))).

(** [l[i]] on a Python list. *)
Definition index (l : list (list A)) (i : nat) : outcome (list A) :=
  match l !! i with
  | Some x => Ok x
  | None => Raise IndexError
  end.
End Sequences.

(** ** [str] and [bytes] *)

Definition str : Type := list N.
Definition bytes : Type := list ascii.

(** Literals.  [U s] is the [str] and [B s] the [bytes] with the characters
    of [s]. *)
Definition B (s : string) : bytes := list_ascii_of_string s.
Definition U (s : string) : str := N_of_ascii <$> list_ascii_of_string s.

Definition CR : ascii := ascii_of_N 13.
Definition LF : ascii := ascii_of_N 10.
Definition CRLF : bytes := [CR; LF].
Definition uCRLF : str := [13; 10].

(** [bytes.isspace]: space, tab, newline, return, vertical tab, form feed. *)
Definition isspace_byte (c : ascii) : bool :=
  let n := N_of_ascii c in
  ((9 <=? n) && (n <=? 13)) || (n =? 32).

(** [str.isspace] as [str.split] and [str.strip] use it: the code points
    CPython's [Py_UNICODE_ISSPACE] accepts. *)
Definition isspace_cp (c : N) : bool :=
  ((9 <=? c) && (c <=? 13)) || ((28 <=? c) && (c <=? 32))
  || (c =? 0x85) || (c =? 0xA0) || (c =? 0x1680)
  || ((0x2000 <=? c) && (c <=? 0x200A))
  || (c =? 0x2028) || (c =? 0x2029) || (c =? 0x202F) || (c =? 0x205F)
  || (c =? 0x3000).

(** [bytes.lower]: only the ASCII letters change. *)
Definition lower_byte (c : ascii) : ascii :=
  let n := N_of_ascii c in
  if (65 <=? n) && (n <=? 90) then ascii_of_N (n + 32) else c.

Definition lower_bytes (b : bytes) : bytes := lower_byte <$> b.

(** [str.lower], one code point at a time.  Below U+0100 this is the
    Unicode table.  Above, three code points are listed: U+0130, whose
    lower case is the two code points U+0069 U+0307, U+212A KELVIN SIGN,
    whose lower case is the letter k, and U+212B ANGSTROM SIGN.  Every
    other code point is carried unchanged: its Unicode lower case is a
    code point above U+007F, and the server only compares lowered text
    with the ASCII prefix ["host:"]. *)
Definition lower_cp (c : N) : list N :=
  if (65 <=? c) && (c <=? 90) then [c + 32]
  else if (0xC0 <=? c) && (c <=? 0xDE) && negb (c =? 0xD7) then [c + 32]
  else if c =? 0x130 then [0x69; 0x307]
  else if c =? 0x212A then [0x6B]
  else if c =? 0x212B then [0xE5]
  else [c].

Definition lower_str (s : str) : str := s ≫= lower_cp.

(** ** UTF-8: [bytes.decode()] and [str.encode()] *)

Definition between (lo hi b : N) : bool := (lo <=? b) && (b <=? hi).

Definition continuation (b : N) : bool := between 0x80 0xBF b.

(** The range allowed for the second byte of a sequence that starts with
    [b0]: overlong forms, surrogates and values above U+10FFFF are refused
    there. *)
Definition second_ok (b0 b1 : N) : bool :=
  if b0 =? 0xE0 then between 0xA0 0xBF b1
  else if b0 =? 0xED then between 0x80 0x9F b1
  else if b0 =? 0xF0 then between 0x90 0xBF b1
  else if b0 =? 0xF4 then between 0x80 0x8F b1
  else continuation b1.

Fixpoint utf8_decode (bs : list N) : outcome str :=
  match bs with
  | [] => Ok []
  | b0 :: r0 =>
      if b0 <? 0x80 then
        s ← utf8_decode r0; Ok (b0 :: s)
      else if between 0xC2 0xDF b0 then
        match r0 with
        | b1 :: r1 =>
            if continuation b1 then
              s ← utf8_decode r1;
              Ok ((b0 - 0xC0) * 64 + (b1 - 0x80) :: s)
            else Raise UnicodeDecodeError
        | _ => Raise UnicodeDecodeError
        end
      else if between 0xE0 0xEF b0 then
        match r0 with
        | b1 :: b2 :: r2 =>
            if second_ok b0 b1 && continuation b2 then
              s ← utf8_decode r2;
              Ok ((b0 - 0xE0) * 4096 + (b1 - 0x80) * 64 + (b2 - 0x80) :: s)
            else Raise UnicodeDecodeError
        | _ => Raise UnicodeDecodeError
        end
      else if between 0xF0 0xF4 b0 then
        match r0 with
        | b1 :: b2 :: b3 :: r3 =>
            if second_ok b0 b1 && continuation b2 && continuation b3 then
              s ← utf8_decode r3;
              Ok ((b0 - 0xF0) * 262144 + (b1 - 0x80) * 4096
                  + (b2 - 0x80) * 64 + (b3 - 0x80) :: s)
            else Raise UnicodeDecodeError
        | _ => Raise UnicodeDecodeError
        end
      else Raise UnicodeDecodeError
  end.

(** [b.decode()] *)
Definition decode (b : bytes) : outcome str := utf8_decode (N_of_ascii <$> b).

Definition utf8_encode_cp (c : N) : outcome (list N) :=
  if c <? 0x80 then Ok [c]
  else if c <? 0x800 then Ok [0xC0 + c / 64; 0x80 + c mod 64]
  else if c <? 0x10000 then
    if between 0xD800 0xDFFF c then Raise UnicodeEncodeError
    else Ok [0xE0 + c / 4096; 0x80 + (c / 64) mod 64; 0x80 + c mod 64]
  else if c <=? 0x10FFFF then
    Ok [0xF0 + c / 262144; 0x80 + (c / 4096) mod 64;
        0x80 + (c / 64) mod 64; 0x80 + c mod 64]
  else Raise UnicodeEncodeError.

Fixpoint utf8_encode (s : str) : outcome (list N) :=
  match s with
  | [] => Ok []
  | c :: s' =>
      bs ← utf8_encode_cp c;
      rest ← utf8_encode s';
      Ok (bs ++ rest)
  end.

(** [s.encode()] *)
Definition encode (s : str) : outcome bytes :=
  bs ← utf8_encode s; Ok (map ascii_of_N bs).

(** A value whose Python type the code leaves open: a [str] or a [bytes]. *)
Inductive pyobj : Type :=
  | PyStr (s : str)
  | PyBytes (b : bytes).

(** [o.encode()]: [bytes] objects have no such method. *)
Definition encode_method (o : pyobj) : outcome bytes :=
  match o with
  | PyStr s => encode s
  | PyBytes _ => Raise AttributeError
  end.

(** [o.decode()]: [str] objects have no such method. *)
Definition decode_method (o : pyobj) : outcome str :=
  match o with
  | PyStr _ => Raise AttributeError
  | PyBytes b => decode b
  end.

(** ** [time.gmtime] and [time.strftime] *)

Record struct_time : Type := {
  tm_year : N;
  tm_mon : N;    (* 1..12 *)
  tm_mday : N;
  tm_hour : N;
  tm_min : N;
  tm_sec : N;
  tm_wday : N    (* 0 is Monday *)
}.

Definition digit (n : N) : N := 48 + n mod 10.

Definition two_digits (n : N) : str := [digit (n / 10); digit n].

Definition four_digits (n : N) : str :=
  [digit (n / 1000); digit (n / 100); digit (n / 10); digit n].

Definition day_name (wday : N) : str :=
  nth (N.to_nat wday)
      [U "Mon"; U "Tue"; U "Wed"; U "Thu"; U "Fri"; U "Sat"; U "Sun"] [].

Definition month_name (mon : N) : str :=
  nth (N.to_nat (mon - 1))
      [U "Jan"; U "Feb"; U "Mar"; U "Apr"; U "May"; U "Jun";
       U "Jul"; U "Aug"; U "Sep"; U "Oct"; U "Nov"; U "Dec"] [].

(** The directives of the C locale that the server's format uses; another
    character after [%] is kept as it stands. *)
Definition directive (d : N) (t : struct_time) : str :=
  if d =? 0x61 then day_name (tm_wday t)            (* %a *)
  else if d =? 0x62 then month_name (tm_mon t)      (* %b *)
  else if d =? 0x64 then two_digits (tm_mday t)     (* %d *)
  else if d =? 0x48 then two_digits (tm_hour t)     (* %H *)
  else if d =? 0x4D then two_digits (tm_min t)      (* %M *)
  else if d =? 0x53 then two_digits (tm_sec t)      (* %S *)
  else if d =? 0x59 then four_digits (tm_year t)    (* %Y *)
  else if d =? 0x25 then [0x25]                     (* %% *)
  else [0x25; d].

Fixpoint strftime (format : str) (t : struct_time) : str :=
  match format with
  | [] => []
  | c :: rest =>
      if c =? 0x25 then
        match rest with
        | d :: rest' => directive d t ++ strftime rest' t
        | [] => [c]
        end
      else c :: strftime rest t
  end.

(** [time.strftime(format, t)]: the format has to be a [str]; CPython
    answers a [bytes] format with
    [TypeError: strftime() argument 1 must be str, not bytes]. *)
Definition time_strftime (format : pyobj) (t : struct_time) : outcome pyobj :=
  match format with
  | PyStr f => Ok (PyStr (strftime f t))
  | PyBytes _ => Raise TypeError
  end.

(** ** HTTP message utilities *)

(** [get_url]: [request.split('\r\n')], then [lines[0].split()[1]]. *)
Definition get_url (request : str) : outcome str :=
  let lines := split uCRLF request in
  match lines with
  | _ :: _ =>
      line0 ← index lines 0;
      index (split_ws isspace_cp line0) 1
  | [] => Ok (U "")
  end.

(** [get_status_code]: the same on the response bytes. *)
Definition get_status_code (response : bytes) : outcome bytes :=
  let lines := split CRLF response in
  match lines with
  | _ :: _ =>
      line0 ← index lines 0;
      index (split_ws isspace_byte line0) 1
  | [] => Ok (B "")
  end.

(** The body of the [for line in lines] loop of [get_host] for a line that
    passed the [startswith('host:')] test. *)
Definition host_of_line (line : str) : outcome str :=
  value ← index (split1 (U ":") line) 1;
  let host_line := strip isspace_cp value in
  if contains (U ":") host_line then
    match split1 (U ":") host_line with
    | [host; port] => Ok (strip isspace_cp host)
    | _ => Raise ValueError
    end
  else Ok host_line.

Definition is_host_line (line : str) : bool :=
  startswith (lower_str line) (U "host:").

Fixpoint get_host_lines (lines : list str) : outcome str :=
  match lines with
  | [] => Ok (U "localhost")
  | line :: rest =>
      if is_host_line line then host_of_line line
      else get_host_lines rest
  end.

Definition get_host (request : str) : outcome str :=
  get_host_lines (split uCRLF request).

Definition is_last_modified_line (line : bytes) : bool :=
  startswith (lower_bytes line) (B "last-modified:").

Definition http_date_format : string := "%a, %d %b %Y %H:%M:%S GMT".

Fixpoint get_last_modified_lines (lines : list bytes) (now : struct_time)
  : outcome pyobj :=
  match lines with
  | [] => time_strftime (PyBytes (B http_date_format)) now
  | line :: rest =>
      if is_last_modified_line line then
        value ← index (split1 (B ":") line) 1;
        Ok (PyBytes (strip isspace_byte value))
      else get_last_modified_lines rest now
  end.

(** [get_last_modified]; [now] is what [time.gmtime()] returns. *)
Definition get_last_modified (request : bytes) (now : struct_time)
  : outcome pyobj :=
  get_last_modified_lines (split CRLF request) now.

(** ** Effects: sockets, log, clock and the shared cache *)

(** The two peers of a connection handler: the accepted client socket, and
    the socket the handler opens to the target server. *)
Inductive sock : Type :=
  | Client
  | Origin.

Global Instance sock_eq_dec : EqDecision sock.
Proof. solve_decision. Defined.

(** The messages handed to [_update_cb] by [handle_request]. *)
Inductive logmsg : Type :=
  | LogRequest (request : str)     (* f'Client Request:\n{request}' *)
  | LogSaved (time_saved : Z)      (* f'Saved {time_saved} by Caching!' *)
  | LogClosed.                     (* f'Closed Connection: {client_address}\n' *)

Inductive event : Type :=
  | EConnect (host : str) (port : N)   (* a new socket and its [connect] *)
  | ERecv (s : sock) (data : bytes)    (* [s.recv(BUFFER)] returned [data] *)
  | ESend (s : sock) (data : bytes)    (* [s.send(data)] *)
  | ESendAll (s : sock) (data : bytes) (* [s.sendall(data)] *)
  | ESelect (ready : list sock)        (* [select.select] returned [ready] *)
  | EClose (s : sock)                  (* [s.close()] *)
  | ELog (m : logmsg).

(** A cache entry: the list [[response, last_modified, execution_time]]. *)
Record entry : Type := Entry {
  rawResponse : bytes;
  lastModified : pyobj;
  fetchLatency : Z
}.

(** What the outside world answers to one run of [handle_request].  A
    [recv] returns at most [BUFFER] bytes; an empty answer is a peer that
    has closed.  Clock readings are integers (ticks). *)
Record environment : Type := {
  client_data : bytes;       (* the single [recv] on the client socket *)
  probe_data : bytes;        (* the single [recv] of a conditional GET *)
  fetch_data : list bytes;   (* the successive [recv]s of [recv_all] *)
  tunnel_data : list (list (sock * bytes));
                             (* per [select] call: the sockets it reports
                                ready, each with what its [recv] returns *)
  start_clock : Z;           (* [time.time()] on entry *)
  end_clock : Z;             (* [time.time()] after the response is sent *)
  gmtime : struct_time       (* [time.gmtime()] *)
}.

Definition BACKLOG : N := 10.
Definition BUFFER : N := 8192.
Definition HTTP_PORT : N := 80.
Definition HTTPS_PORT : N := 443.

Record result (A : Type) : Type := Result {
  events : list event;
  value : outcome A;
  store : gmap str entry
}.

Arguments Result {A} events value store.
Arguments events {A} r.
Arguments value {A} r.
Arguments store {A} r.

(** Code of the server: it reads and updates [self.cache], performs events
    and ends with an outcome. *)
Definition M (A : Type) : Type := gmap str entry -> result A.

Global Instance M_ret : MRet M := fun A a c => Result [] (Ok a) c.

Global Instance M_bind : MBind M := fun A B k m c =>
  let r := m c in
  match value r with
  | Ok a =>
      let r' := k a (store r) in
      Result (events r ++ events r') (value r') (store r')
  | Raise e => Result (events r) (Raise e) (store r)
  | Block => Result (events r) Block (store r)
  end.

Definition emit (e : event) : M unit := fun c => Result [e] (Ok tt) c.

Definition lift {A} (o : outcome A) : M A := fun c => Result [] o c.

(** The result [r] of a computation that comes after the events [ev]. *)
Definition after {A} (ev : list event) (r : result A) : result A :=
  Result (ev ++ events r) (value r) (store r).

(** [key in self.cache] *)
Definition cache_has (key : str) : M bool :=
  fun c => Result [] (Ok (bool_decide (is_Some (c !! key)))) c.

(** [self.cache[key]] *)
Definition cache_get (key : str) : M entry :=
  fun c =>
    Result [] (match c !! key with Some e => Ok e | None => Raise KeyError end) c.

(** [self.cache[key] = e] *)
Definition cache_set (key : str) (e : entry) : M unit :=
  fun c => Result [] (Ok tt) (<[key := e]> c).

Definition recv (s : sock) (answer : bytes) : M bytes :=
  emit (ERecv s answer);; mret answer.

Definition send (s : sock) (data : bytes) : M unit := emit (ESend s data).
Definition sendall (s : sock) (data : bytes) : M unit := emit (ESendAll s data).
Definition close (s : sock) : M unit := emit (EClose s).
Definition connect (host : str) (port : N) : M unit := emit (EConnect host port).
Definition _update_cb (m : logmsg) : M unit := emit (ELog m).

(** ** The forwarding client *)

(** [recv_all]: [chunks] are the answers of the successive [recv] calls.
    When they run out before an empty one, the peer neither sends nor
    closes and the loop waits for ever. *)
Fixpoint recv_all_from (chunks : list bytes) (data : bytes) : M bytes :=
  match chunks with
  | [] => lift Block
  | answer :: rest =>
      chunk ← recv Origin answer;
      match chunk with
      | [] => mret data
      | _ :: _ => recv_all_from rest (data ++ chunk)
      end
  end.

Definition recv_all (chunks : list bytes) : M bytes :=
  recv_all_from chunks (B "").

Definition forward_to_server (env : environment) (request : str)
    (conditional_get : bool) : M bytes :=
  target_host ← lift (get_host request);
  connect target_host HTTP_PORT;;
  data ← lift (encode request);
  sendall Origin data;;
  server_response ←
    (if conditional_get then recv Origin (probe_data env)
     else recv_all (fetch_data env));
  close Origin;;
  mret server_response.

(** ** The HTTPS tunnel *)

Definition established : bytes :=
  B "HTTP/1.1 200 Connection Established" ++ CRLF ++ CRLF.

(** The [for s in rlist] loop of one [select] round.  It answers [true]
    when the function returned from inside the loop. *)
Fixpoint relay_round (ready : list (sock * bytes)) : M bool :=
  match ready with
  | [] => mret false
  | (s, answer) :: more =>
      data ← recv s answer;
      match data with
      | [] => close Client;; close Origin;; mret true
      | _ :: _ =>
          (if bool_decide (s = Client) then send Origin data
           else send Client data);;
          relay_round more
      end
  end.

(** [relay_https]: the [while True] loop over the [select] rounds; when
    the rounds run out no socket becomes readable any more and [select]
    waits for ever. *)
Fixpoint relay_https (rounds : list (list (sock * bytes))) : M unit :=
  match rounds with
  | [] => lift Block
  | ready :: later =>
      emit (ESelect (ready.*1));;
      returned ← relay_round ready;
      if (returned : bool) then mret tt else relay_https later
  end.

Definition handle_https (env : environment) (request : str) : M unit :=
  target_host ← lift (get_host request);
  connect target_host HTTPS_PORT;;
  send Client established;;
  relay_https (tunnel_data env).

(** ** The connection handler *)

Definition blocked_response : bytes :=
  B "HTTP/1.1 403 Forbidden" ++ CRLF
  ++ B "Content-Type: text/html" ++ CRLF ++ CRLF
  ++ B "<html><head><title>403 Forbidden</title></head><body><h1>403 Forbidden</h1><p>This page has been blocked by the proxy server.</p></body></html>".

Definition conditional_request_for (target_url target_host last_modified : str)
  : str :=
  U "GET " ++ target_url ++ U " HTTP/1.1" ++ uCRLF
  ++ U "Host: " ++ target_host ++ uCRLF
  ++ U "If-Modified-Since: " ++ last_modified ++ uCRLF ++ uCRLF.

Definition handle_request (blocked_urls : gset str) (env : environment)
  : M unit :=
  let start_time := start_clock env in
  data ← recv Client (client_data env);
  request ← lift (decode data);
  _update_cb (LogRequest request);;
  if bool_decide (request = []) then close Client
  else
    target_url ← lift (get_url request);
    target_host ← lift (get_host request);
    (if bool_decide (target_url ∈ blocked_urls) then
       (if contains (U "CONNECT") request then send Client established
        else mret tt);;
       sendall Client blocked_response
     else
       cached ← cache_has target_url;
       if (cached : bool) then
         e ← cache_get target_url;
         last_modified ← lift (decode_method (lastModified e));
         let conditional_request :=
           conditional_request_for target_url target_host last_modified in
         conditional_response ← forward_to_server env conditional_request true;
         code ← lift (get_status_code conditional_response);
         if bool_decide (code = B "304") then
           e ← cache_get target_url;
           sendall Client (rawResponse e);;
           let execution_time := (end_clock env - start_time)%Z in
           e ← cache_get target_url;
           _update_cb (LogSaved (fetchLatency e - execution_time)%Z)
         else
           response ← forward_to_server env request false;
           encoded ← lift (encode_method (PyBytes response));
           sendall Client encoded;;
           let execution_time := (end_clock env - start_time)%Z in
           last_modified ← lift (get_last_modified response (gmtime env));
           cache_set target_url (Entry response last_modified execution_time)
       else if contains (U "CONNECT") request then handle_https env request
       else
         response ← forward_to_server env request false;
         sendall Client response;;
         let execution_time := (end_clock env - start_time)%Z in
         last_modified ← lift (get_last_modified response (gmtime env));
         cache_set target_url (Entry response last_modified execution_time));;
    _update_cb LogClosed;;
    close Client.

(** ** The listener *)

(** [start], after the socket is bound: one handler per accepted
    connection.  The handlers are threads; here each one runs to its end
    before the next connection is accepted, and what a handler raises ends
    that handler only.  The answer lists what each handler did. *)
Fixpoint start (blocked_urls : gset str) (connections : list environment)
    (cache : gmap str entry) : list (result unit) :=
  match connections with
  | [] => []
  | env :: later =>
      let r := handle_request blocked_urls env cache in
      r :: start blocked_urls later (store r)
  end.

(** ** The vocabulary of the specification *)

(** The tokens of the request line: method, target, version. *)
Definition request_line_tokens (request : str) : list str :=
  match split uCRLF request with
  | line0 :: _ => split_ws isspace_cp line0
  | [] => []
  end.

(** The tokens of the status line of a response. *)
Definition status_line_tokens (response : bytes) : list bytes :=
  match split CRLF response with
  | line0 :: _ => split_ws isspace_byte line0
  | [] => []
  end.

(** The data the relay reads, in the order of the [recv] calls: the
    [select] rounds laid end to end. *)
Definition reads (rounds : list (list (sock * bytes))) : list (sock * bytes) :=
  concat rounds.

Definition other (s : sock) : sock :=
  match s with
  | Client => Origin
  | Origin => Client
  end.

(** The socket calls of a trace, without the [select] calls. *)
Definition socket_calls (tr : list event) : list event :=
  List.filter (fun e => match e with ESelect _ => false | _ => true end) tr.

(** What the relay does with the reads that come before the first empty
    one: each buffer is received and handed to [send] on the other socket. *)
Definition forwarded (rs : list (sock * bytes)) : list event :=
  rs ≫= (fun '(s, data) => [ERecv s data; ESend (other s) data]).

(** The buffers a trace hands to [send] on socket [s], in order. *)
Definition sent_to (s : sock) (tr : list event) : list bytes :=
  tr ≫= (fun e =>
    match e with
    | ESend s' data => if bool_decide (s' = s) then [data] else []
    | _ => []
    end).

(** The buffers of [rs] that were read from socket [s], in order. *)
Definition read_from (s : sock) (rs : list (sock * bytes)) : list bytes :=
  rs ≫= (fun '(s', data) => if bool_decide (s' = s) then [data] else []).

(** The reads up to the first empty one, and the socket that answered
    the empty read, if there is one. *)
Fixpoint until_close (rs : list (sock * bytes))
  : list (sock * bytes) * option sock :=
  match rs with
  | [] => ([], None)
  | (s, data) :: rest =>
      match data with
      | [] => ([], Some s)
      | _ :: _ =>
          let '(before, closer) := until_close rest in
          ((s, data) :: before, closer)
      end
  end.

(** The end of the relay once socket [s] has answered an empty read. *)
Definition closing (closer : option sock) : list event :=
  match closer with
  | Some s => [ERecv s []; EClose Client; EClose Origin]
  | None => []
  end.

(** ** Sample requests and answers *)

Definition sample_time : struct_time :=
  {| tm_year := 2024; tm_mon := 1; tm_mday := 1; tm_hour := 0;
     tm_min := 0; tm_sec := 0; tm_wday := 0 |}.

Definition sample_target : str := U "http://example.com/".

Definition sample_get : bytes :=
  B "GET http://example.com/ HTTP/1.1" ++ CRLF
  ++ B "Host: example.com" ++ CRLF ++ CRLF.

Definition sample_connect : bytes :=
  B "CONNECT example.com:443 HTTP/1.1" ++ CRLF
  ++ B "Host: example.com:443" ++ CRLF ++ CRLF.

(** A GET whose target contains the characters CONNECT. *)
Definition sample_get_connect : bytes :=
  B "GET http://example.com/CONNECT HTTP/1.1" ++ CRLF
  ++ B "Host: example.com" ++ CRLF ++ CRLF.

Definition sample_200 : bytes :=
  B "HTTP/1.1 200 OK" ++ CRLF
  ++ B "Last-Modified: Mon, 01 Jan 2024 00:00:00 GMT" ++ CRLF ++ CRLF
  ++ B "BODY".

Definition sample_200_undated : bytes :=
  B "HTTP/1.1 200 OK" ++ CRLF ++ CRLF ++ B "BODY".

Definition sample_304 : bytes :=
  B "HTTP/1.1 304 Not Modified" ++ CRLF ++ CRLF.

Definition sample_entry : entry :=
  {| rawResponse := B "HTTP/1.1 200 OK" ++ CRLF ++ CRLF ++ B "OLD";
     lastModified := PyBytes (B "Mon, 01 Jan 2024 00:00:00 GMT");
     fetchLatency := 30 |}.

(** The sample requests as text. *)
Definition sample_get_text : str :=
  U "GET http://example.com/ HTTP/1.1" ++ uCRLF
  ++ U "Host: example.com" ++ uCRLF ++ uCRLF.

Definition sample_connect_text : str :=
  U "CONNECT example.com:443 HTTP/1.1" ++ uCRLF
  ++ U "Host: example.com:443" ++ uCRLF ++ uCRLF.

(** A tunnel: the client sends twice, the target server answers once and
    then closes. *)
Definition sample_tunnel : list (list (sock * bytes)) :=
  [[(Client, B "hello")];
   [(Client, B "a"); (Origin, B "b")];
   [(Origin, B ""); (Client, B "late")];
   [(Client, B "never")]].

(** The environment of a handler whose client sends [request], whose
    conditional GET is answered with [probe], whose full fetch is answered
    with [fetch] and whose tunnel sees [tunnel]. *)
Definition sample_env (request probe : bytes) (fetch : list bytes)
    (tunnel : list (list (sock * bytes))) : environment :=
  {| client_data := request; probe_data := probe; fetch_data := fetch;
     tunnel_data := tunnel; start_clock := 100; end_clock := 110;
     gmtime := sample_time |}.

(** A byte string that is not UTF-8. *)
Definition sample_not_utf8 : bytes := [ascii_of_N 0xFF; ascii_of_N 0xFE].

(** ** What code does to the cache *)

(** Code that leaves the cache as it found it. *)
Definition keeps {A} (m : M A) : Prop := forall c, store (m c) = c.

(** Code that leaves the cache as it found it or, when it ends normally,
    may have set the entry of [key], to an entry whose [lastModified] is
    a [bytes]. *)
Definition sets_only {A} (key : str) (m : M A) : Prop :=
  forall c,
    store (m c) = c
    \/ exists e b,
         store (m c) = <[key := e]> c /\ lastModified e = PyBytes b
         /\ exists a, value (m c) = Ok a.

(** Code after which every entry of the cache is still there, unchanged. *)
Definition grows {A} (m : M A) : Prop := forall c, c ⊆ store (m c).

(** Code that does not close the client socket. *)
Definition quiet {A} (m : M A) : Prop :=
  forall c, EClose Client ∉ events (m c).

(** Code that has not closed the client socket when it does not return. *)
Definition open_on_failure {A} (m : M A) : Prop :=
  forall c, (forall a, value (m c) <> Ok a) -> EClose Client ∉ events (m c).

(** Code whose last call, when it returns, closes the client socket. *)
Definition ends_closed {A} (m : M A) : Prop :=
  forall c a, value (m c) = Ok a ->
    exists before, events (m c) = before ++ [EClose Client].

(** An entry as [handle_request] stores it under [key]: [key] is a
    request target, and the stored date is the value of a Last-Modified
    line of the stored response, as [get_last_modified] finds it. *)
Definition dated (key : str) (e : entry) : Prop :=
  key <> []
  /\ Forall (fun c => isspace_cp c = false) key
  /\ (exists line, line ∈ split CRLF (rawResponse e)
                   /\ is_last_modified_line line = true)
  /\ (exists b, lastModified e = PyBytes b)
  /\ forall now, get_last_modified (rawResponse e) now = Ok (lastModified e).

(** Code that keeps every entry of the cache [dated]. *)
Definition keeps_dated {A} (m : M A) : Prop :=
  forall c, map_Forall dated c -> map_Forall dated (store (m c)).

(** Code that does not read from the client socket. *)
Definition no_client_read {A} (m : M A) : Prop :=
  forall c data, ERecv Client data ∉ events (m c).

(** ** The management console *)

(** What a click does to the widgets, besides changing the list box. *)
Inductive gui : Type :=
  | LogInsert (text : str)        (* [log_text.insert(tk.END, text)] *)
  | ShowWarning (title message : str)
                                  (* [messagebox.showwarning(title, message)] *)
  | EntryDelete                   (* [word_entry.delete(0, tk.END)] *)
  | StartDisabled                 (* [start_button.config(state=tk.DISABLED)] *)
  | ThreadStart.                  (* the thread that runs [proxy_server.start] *)

(** The console: [proxy_server] is [None] or the server object, which the
    console reaches only through its [blocked_urls]; [blocked_listbox] is
    the list of the items of the list box, first item first. *)
Record ManagementConsole : Type := {
  proxy_server : option (gset str);
  blocked_listbox : list str
}.

(** The end of a callback: the console it leaves, how it ended, and what
    it did to the widgets. *)
Record click : Type := Click {
  console : ManagementConsole;
  raised : outcome unit;
  widgets : list gui
}.

(** [ManagementConsole.__init__]: no server, an empty list box. *)
Definition console_init : ManagementConsole :=
  {| proxy_server := None; blocked_listbox := [] |}.

(** [update_log(message)] *)
Definition update_log (message : str) : list gui :=
  [LogInsert (message ++ [10])].

(** [start_server]: a new server has an empty block list. *)
Definition start_server (w : ManagementConsole) : click :=
  match proxy_server w with
  | Some _ => Click w (Ok tt) []
  | None =>
      Click {| proxy_server := Some ∅; blocked_listbox := blocked_listbox w |}
            (Ok tt) [StartDisabled; ThreadStart]
  end.

Definition warning_add : gui :=
  ShowWarning (U "Warning") (U "URL is empty or already blocked!").

Definition warning_remove : gui :=
  ShowWarning (U "Warning") (U "No URL selected for removal!").

(** [add_blocked_url]; [text] is what [word_entry.get()] returns.  The
    test [url and url not in self.proxy_server.blocked_urls] reads
    [self.proxy_server.blocked_urls] only for a non-empty [url]. *)
Definition add_blocked_url (text : str) (w : ManagementConsole) : click :=
  let url := strip isspace_cp text in
  match url with
  | [] => Click w (Ok tt) [warning_add; EntryDelete]
  | _ :: _ =>
      match proxy_server w with
      | None => Click w (Raise AttributeError) []
      | Some blocked_urls =>
          if bool_decide (url ∉ blocked_urls) then
            Click {| proxy_server := Some ({[url]} ∪ blocked_urls);
                     blocked_listbox := blocked_listbox w ++ [url] |}
                  (Ok tt)
                  (update_log (U "Added blocked URL: " ++ url)
                   ++ [EntryDelete])
          else Click w (Ok tt) [warning_add; EntryDelete]
      end
  end.

(** [remove_blocked_url]; [active] is the index [tk.ACTIVE] stands for.
    [blocked_listbox.get] answers the empty string where there is no
    item, and [blocked_listbox.delete] does nothing there. *)
Definition remove_blocked_url (active : nat) (w : ManagementConsole) : click :=
  let selected_url := default [] (blocked_listbox w !! active) in
  match selected_url with
  | [] => Click w (Ok tt) [warning_remove]
  | _ :: _ =>
      match proxy_server w with
      | None => Click w (Raise AttributeError) []
      | Some blocked_urls =>
          if bool_decide (selected_url ∈ blocked_urls) then
            Click {| proxy_server := Some (blocked_urls ∖ {[selected_url]});
                     blocked_listbox := delete active (blocked_listbox w) |}
                  (Ok tt)
                  (update_log (U "Removed blocked URL: " ++ selected_url))
          else Click w (Raise KeyError) []
      end
  end.

(** What the user does: a click on one of the three buttons, with what
    the entry holds or which item is active at that moment. *)
Inductive action : Type :=
  | ClickStart
  | ClickAdd (text : str)
  | ClickRemove (active : nat).

Definition callback (a : action) (w : ManagementConsole) : click :=
  match a with
  | ClickStart => start_server w
  | ClickAdd text => add_blocked_url text w
  | ClickRemove active => remove_blocked_url active w
  end.

(** [mainloop]: the callbacks run one after the other; a callback that
    raises ends there, and the loop goes on with the console as the
    callback left it. *)
Fixpoint mainloop (actions : list action) (w : ManagementConsole)
  : list click :=
  match actions with
  | [] => []
  | a :: later =>
      let c := callback a w in
      c :: mainloop later (console c)
  end.

(** The list box shows the block list: each blocked URL once, and nothing
    else; without a server it is empty. *)
Definition shows_block_list (w : ManagementConsole) : Prop :=
  NoDup (blocked_listbox w)
  /\ match proxy_server w with
     | None => blocked_listbox w = []
     | Some blocked_urls =>
         forall url, url ∈ blocked_listbox w <-> url ∈ blocked_urls
     end.

(** * Properties *)

(** ** Sequences *)

Section SequenceFacts.
Context {A : Type} `{EqDecision A}.
Implicit Types s p sep : list A.

Lemma startswith_app p k : startswith (p ++ k) p = true.
Proof.
  induction p as [|x p IH]; simpl; [done|].
  rewrite bool_decide_eq_true_2 by done. exact IH.
Qed.

Lemma startswith_inv s p : startswith s p = true -> exists k, s = p ++ k.
Proof.
  revert s. induction p as [|x p IH]; intros s Hs.
  - exists s. done.
  - destruct s as [|y s]; simpl in Hs; [done|].
    apply andb_prop in Hs as [Hxy Hs]. apply bool_decide_eq_true_1 in Hxy.
    destruct (IH _ Hs) as [k ->]. exists k. by subst.
Qed.

Lemma contains_here p k : contains p (p ++ k) = true.
Proof.
  assert (forall s, startswith s p = true -> contains p s = true) as Hc.
  { intros [|c s] Hs; simpl; by rewrite Hs. }
  apply Hc, startswith_app.
Qed.

Lemma contains_infix p s :
  contains p s = true <-> exists a b, s = a ++ p ++ b.
Proof.
  split.
  - induction s as [|c s IH]; simpl; intros Hc.
    + rewrite orb_false_r in Hc. apply startswith_inv in Hc as [k ->].
      by exists [], k.
    + apply orb_prop in Hc as [Hc|Hc].
      * apply startswith_inv in Hc as [k ->]. by exists [], k.
      * destruct (IH Hc) as (a & b & ->). by exists (c :: a), b.
  - intros (a & b & ->). induction a as [|c a IH]; simpl.
    + apply contains_here.
    + rewrite IH. apply orb_true_r.
Qed.

Lemma find_sep_Some sep s before after :
  find_sep sep s = Some (before, after) -> s = before ++ sep ++ after.
Proof.
  revert before. induction s as [|c s IH]; intros before; simpl.
  - destruct (startswith [] sep) eqn:E; [|done].
    intros [= <- <-]. apply startswith_inv in E as [k E].
    destruct sep; [done|discriminate].
  - destruct (startswith (c :: s) sep) eqn:E.
    + intros [= <- <-]. apply startswith_inv in E as [k E].
      rewrite E at 1. simpl. f_equal.
      rewrite E, drop_app_length. done.
    + destruct (find_sep sep s) as [[b a]|]; [|done].
      intros [= <- <-]. simpl. f_equal. by apply IH.
Qed.

Lemma find_sep_None sep s :
  find_sep sep s = None <-> contains sep s = false.
Proof.
  induction s as [|c s IH]; simpl.
  - rewrite orb_false_r. by destruct (startswith [] sep).
  - destruct (startswith (c :: s) sep); simpl; [done|].
    rewrite <- IH. by destruct (find_sep sep s) as [[b a]|].
Qed.

Lemma contains_single x s : contains [x] s = true <-> x ∈ s.
Proof.
  rewrite contains_infix. split.
  - intros (a & b & ->). set_solver.
  - intros (a & b & ->)%list_elem_of_split. by exists a, b.
Qed.

(** The first piece of [s.split(sep)] is a prefix of [s]. *)
Lemma split_head sep s line0 more :
  split sep s = line0 :: more -> exists k, s = line0 ++ k.
Proof.
  unfold split. destruct (length s); simpl.
  - intros [= <- _]. exists []. by rewrite app_nil_r.
  - destruct (find_sep sep s) as [[b a]|] eqn:E.
    + intros [= <- _]. apply find_sep_Some in E. by exists (sep ++ a).
    + intros [= <- _]. exists []. by rewrite app_nil_r.
Qed.

Lemma split_nonempty sep s : split sep s <> [].
Proof.
  unfold split. destruct (length s); simpl; [done|].
  by destruct (find_sep sep s) as [[b a]|].
Qed.

Variable isspace : A -> bool.

Lemma split_ws_aux_infix cur s t :
  t ∈ split_ws_aux isspace cur s ->
  exists a b, reverse cur ++ s = a ++ t ++ b.
Proof.
  revert cur. induction s as [|c s IH]; intros cur; simpl.
  - destruct cur as [|x cur]; [by intros ?%elem_of_nil|].
    intros ->%list_elem_of_singleton. exists [], []. simpl.
    by rewrite !app_nil_r.
  - destruct (isspace c).
    + destruct cur as [|x cur].
      * intros (a & b & E)%IH. simpl in E. exists (c :: a), b.
        simpl. by rewrite <- E.
      * intros [->|(a & b & E)%IH]%elem_of_cons.
        -- by exists [], (c :: s).
        -- simpl in E. exists (reverse (x :: cur) ++ c :: a), b.
           rewrite E. by rewrite <- !app_assoc.
    + intros (a & b & E)%IH. exists a, b. rewrite <- E.
      rewrite reverse_cons, <- app_assoc. done.
Qed.

(** Every token of [s.split()] is a contiguous run of [s]. *)
Lemma split_ws_infix s t :
  t ∈ split_ws isspace s -> exists a b, s = a ++ t ++ b.
Proof. apply (split_ws_aux_infix []). Qed.
End SequenceFacts.

Section SingleSeparator.
Context {A : Type} `{EqDecision A}.

(** Cutting at a one-element separator cuts at its first occurrence. *)
Lemma find_sep_first (x : A) (before after : list A) :
  x ∉ before -> find_sep [x] (before ++ x :: after) = Some (before, after).
Proof.
  induction before as [|c before IH]; intros Hx; simpl.
  - by rewrite bool_decide_eq_true_2.
  - apply not_elem_of_cons in Hx as [Hc Hx].
    rewrite bool_decide_eq_false_2 by done. simpl. by rewrite IH.
Qed.

Lemma contains_single_false (x : A) (s : list A) :
  x ∉ s -> contains [x] s = false.
Proof.
  intros Hx. destruct (contains [x] s) eqn:E; [|done].
  by apply contains_single in E.
Qed.

Lemma startswith_lookup (s p : list A) i x :
  startswith s p = true -> p !! i = Some x -> s !! i = Some x.
Proof.
  intros [k ->]%startswith_inv Hp. by apply lookup_app_l_Some.
Qed.
End SingleSeparator.

(** Boolean tests on numbers, as propositions. *)
Ltac bools :=
  repeat match goal with
  | H : _ && _ = true |- _ => apply andb_prop in H as [? ?]
  | H : _ && _ = false |- _ => apply andb_false_iff in H as [?|?]
  | H : _ || _ = true |- _ => apply orb_prop in H as [?|?]
  | H : _ || _ = false |- _ => apply orb_false_elim in H as [? ?]
  | H : negb _ = true |- _ => apply negb_true_iff in H
  | H : negb _ = false |- _ => apply negb_false_iff in H
  | H : (_ <=? _) = true |- _ => apply N.leb_le in H
  | H : (_ <=? _) = false |- _ => apply N.leb_gt in H
  | H : (_ <? _) = true |- _ => apply N.ltb_lt in H
  | H : (_ <? _) = false |- _ => apply N.ltb_ge in H
  | H : (_ =? _) = true |- _ => apply N.eqb_eq in H
  | H : (_ =? _) = false |- _ => apply N.eqb_neq in H
  | H : bool_decide _ = true |- _ => apply bool_decide_eq_true_1 in H
  | H : bool_decide _ = false |- _ => apply bool_decide_eq_false_1 in H
  end.

(** ** [get_host] *)

(** Which code points lower to one of the characters of ["host:"]: the
    character itself and, for a letter, its capital. *)
Lemma lower_cp_head c t rest p :
  t = 0x68 \/ t = 0x6F \/ t = 0x73 \/ t = 0x74 \/ t = 0x3A ->
  startswith (lower_cp c ++ rest) (t :: p) = true ->
  (c = t \/ (c + 32 = t /\ t <> 0x3A)) /\ startswith rest p = true.
Proof.
  intros Ht. unfold lower_cp.
  repeat case_match; simpl; intros [Hc Hr]%andb_prop;
    bools; (split; [lia|first [done|exfalso; lia]]).
Qed.

Lemma is_host_line_inv line :
  is_host_line line = true ->
  exists h o s t rest,
    line = h :: o :: s :: t :: 0x3A :: rest
    /\ (h = 0x68 \/ h = 0x48) /\ (o = 0x6F \/ o = 0x4F)
    /\ (s = 0x73 \/ s = 0x53) /\ (t = 0x74 \/ t = 0x54).
Proof.
  unfold is_host_line, lower_str.
  change (U "host:") with [0x68; 0x6F; 0x73; 0x74; 0x3A].
  intros Hl.
  destruct line as [|h line]; [discriminate Hl|]. rewrite bind_cons in Hl.
  apply lower_cp_head in Hl as [Hh Hl]; [|tauto].
  destruct line as [|o line]; [discriminate Hl|]. rewrite bind_cons in Hl.
  apply lower_cp_head in Hl as [Ho Hl]; [|tauto].
  destruct line as [|s line]; [discriminate Hl|]. rewrite bind_cons in Hl.
  apply lower_cp_head in Hl as [Hs Hl]; [|tauto].
  destruct line as [|t line]; [discriminate Hl|]. rewrite bind_cons in Hl.
  apply lower_cp_head in Hl as [Ht Hl]; [|tauto].
  destruct line as [|c rest]; [discriminate Hl|]. rewrite bind_cons in Hl.
  apply lower_cp_head in Hl as [Hc Hl]; [|tauto].
  exists h, o, s, t, rest.
  repeat split; [do 4 f_equal; f_equal; lia|lia..].
Qed.

Lemma is_host_line_intro h o s t rest :
  (h = 0x68 \/ h = 0x48) -> (o = 0x6F \/ o = 0x4F) ->
  (s = 0x73 \/ s = 0x53) -> (t = 0x74 \/ t = 0x54) ->
  is_host_line (h :: o :: s :: t :: 0x3A :: rest) = true.
Proof.
  intros [-> | ->] [-> | ->] [-> | ->] [-> | ->]; reflexivity.
Qed.

(** A line that passes the test is a name of four letters, a colon, and
    the value. *)
Lemma is_host_line_colon line :
  is_host_line line = true ->
  exists name value,
    line = name ++ 0x3A :: value /\ (0x3A ∉ name) /\ lower_str name = U "host".
Proof.
  intros (h & o & s & t & rest & -> & Hh & Ho & Hs & Ht)%is_host_line_inv.
  exists [h; o; s; t], rest. split; [done|]. split.
  - rewrite !not_elem_of_cons. repeat split; try lia. apply not_elem_of_nil.
  - destruct Hh as [-> | ->], Ho as [-> | ->], Hs as [-> | ->],
      Ht as [-> | ->]; reflexivity.
Qed.

Lemma host_of_line_plain name value :
  0x3A ∉ name ->
  0x3A ∉ strip isspace_cp value ->
  host_of_line (name ++ 0x3A :: value) = Ok (strip isspace_cp value).
Proof.
  intros Hn Hv. unfold host_of_line, split1.
  change (U ":") with [0x3A]. rewrite find_sep_first by done. simpl.
  by rewrite contains_single_false.
Qed.

Lemma host_of_line_port name value host port :
  0x3A ∉ name ->
  strip isspace_cp value = host ++ 0x3A :: port ->
  0x3A ∉ host ->
  host_of_line (name ++ 0x3A :: value) = Ok (strip isspace_cp host).
Proof.
  intros Hn Hv Hh. unfold host_of_line, split1.
  change (U ":") with [0x3A]. rewrite find_sep_first by done. simpl.
  rewrite Hv.
  replace (contains [0x3A] (host ++ 0x3A :: port)) with true.
  - by rewrite find_sep_first.
  - symmetry. apply contains_single. set_solver.
Qed.

Lemma host_of_line_total line :
  is_host_line line = true -> exists host, host_of_line line = Ok host.
Proof.
  intros (name & value & -> & Hn & _)%is_host_line_colon.
  destruct (decide (0x3A ∈ strip isspace_cp value)) as [Hin|Hnot].
  - apply list_elem_of_split_l in Hin as (host & port & Hv & Hh).
    eexists. by eapply host_of_line_port.
  - eexists. by apply host_of_line_plain.
Qed.

Lemma get_host_lines_none lines :
  (forall line, line ∈ lines -> is_host_line line = false) ->
  get_host_lines lines = Ok (U "localhost").
Proof.
  induction lines as [|l lines IH]; intros Hno; simpl; [done|].
  rewrite Hno by set_solver. apply IH. intros. apply Hno. set_solver.
Qed.

Lemma get_host_lines_first pre line post :
  (forall l, l ∈ pre -> is_host_line l = false) ->
  is_host_line line = true ->
  get_host_lines (pre ++ line :: post) = host_of_line line.
Proof.
  induction pre as [|l pre IH]; intros Hno Hl; simpl.
  - by rewrite Hl.
  - rewrite Hno by set_solver. apply IH; [|done].
    intros. apply Hno. set_solver.
Qed.

Lemma get_host_lines_total lines : exists host, get_host_lines lines = Ok host.
Proof.
  induction lines as [|l lines IH]; simpl; [by eexists|].
  destruct (is_host_line l) eqn:E; [|done]. by apply host_of_line_total.
Qed.

Lemma get_host_total request : exists host, get_host request = Ok host.
Proof. apply get_host_lines_total. Qed.

(** C7, as the code has it: [get_host] never fails; without a line that
    starts with "host:" in any letter case it answers "localhost";
    otherwise the first such line decides: its value, stripped, up to its
    first colon, stripped again.  A port suffix is dropped that way, and
    so is whatever else follows the first colon of the value. *)
Theorem get_host_spec (request : str) :
  (exists host, get_host request = Ok host)
  /\ ((forall line, line ∈ split uCRLF request -> is_host_line line = false) ->
      get_host request = Ok (U "localhost"))
  /\ (forall pre line post,
        split uCRLF request = pre ++ line :: post ->
        (forall l, l ∈ pre -> is_host_line l = false) ->
        is_host_line line = true ->
        exists name value,
          line = name ++ 0x3A :: value /\ lower_str name = U "host"
          /\ (0x3A ∉ strip isspace_cp value ->
              get_host request = Ok (strip isspace_cp value))
          /\ (forall host port,
                strip isspace_cp value = host ++ 0x3A :: port ->
                0x3A ∉ host ->
                get_host request = Ok (strip isspace_cp host)))
  /\ (forall line,
        is_host_line line = true <->
        exists h o s t rest,
          line = h :: o :: s :: t :: 0x3A :: rest
          /\ (h = 0x68 \/ h = 0x48) /\ (o = 0x6F \/ o = 0x4F)
          /\ (s = 0x73 \/ s = 0x53) /\ (t = 0x74 \/ t = 0x54))
  /\ get_host (U "Host: example.com:8080" ++ uCRLF ++ uCRLF)
     = Ok (U "example.com")
  /\ get_host (U "GET / HTTP/1.1" ++ uCRLF ++ U "hOsT:example.com"
               ++ uCRLF ++ uCRLF)
     = Ok (U "example.com").
Proof.
  split; [apply get_host_total|].
  split; [apply get_host_lines_none|].
  split.
  { intros pre line post Hs Hpre Hl.
    destruct (is_host_line_colon _ Hl) as (name & value & -> & Hn & Hlow).
    exists name, value. split; [done|]. split; [done|].
    unfold get_host. rewrite Hs, get_host_lines_first by done. split.
    - by apply host_of_line_plain.
    - intros host port. by apply host_of_line_port. }
  split.
  { intros line. split; [apply is_host_line_inv|].
    intros (h & o & s & t & rest & -> & ? & ? & ? & ?).
    by apply is_host_line_intro. }
  split; reflexivity.
Qed.


(** The value of a Host header that names an IPv6 address and a port:
    the host answered is the text before the first colon of the value,
    not the value without its port suffix. *)
Lemma get_host_cuts_ipv6_literal :
  get_host (U "GET / HTTP/1.1" ++ uCRLF
            ++ U "Host: [2001:db8::1]:8080" ++ uCRLF ++ uCRLF)
  = Ok (U "[2001")
  /\ U "[2001" <> U "[2001:db8::1]"
  /\ get_host (U "GET / HTTP/1.1" ++ uCRLF ++ U "Host: [::1]" ++ uCRLF
               ++ uCRLF)
     = Ok (U "[")
  /\ U "[" <> U "[::1]".
Proof. split; [reflexivity|]. split; [discriminate|]. split; [reflexivity|discriminate]. Qed.

(** ** [get_url] and [get_status_code] *)

Lemma get_url_tokens request :
  get_url request = index (request_line_tokens request) 1.
Proof.
  unfold get_url, request_line_tokens.
  destruct (split uCRLF request) eqn:E; [|done].
  by apply split_nonempty in E.
Qed.

Lemma get_status_code_tokens response :
  get_status_code response = index (status_line_tokens response) 1.
Proof.
  unfold get_status_code, status_line_tokens.
  destruct (split CRLF response) eqn:E; [|done].
  by apply split_nonempty in E.
Qed.

Lemma index_short {A} (l : list (list A)) :
  (length l < 2)%nat -> index l 1 = Raise IndexError.
Proof. destruct l as [|x [|y l]]; simpl; [done|done|lia]. Qed.

(** The request-line target is the second token; with fewer than two
    tokens [lines[0].split()[1]] raises [IndexError]. *)
Lemma get_url_second request method target rest :
  request_line_tokens request = method :: target :: rest ->
  get_url request = Ok target.
Proof. intros E. by rewrite get_url_tokens, E. Qed.

Lemma get_url_short request :
  (length (request_line_tokens request) < 2)%nat ->
  get_url request = Raise IndexError.
Proof. intros Hl. rewrite get_url_tokens. by apply index_short. Qed.

Lemma get_url_Ok_tokens request target :
  get_url request = Ok target ->
  exists method rest, request_line_tokens request = method :: target :: rest.
Proof.
  rewrite get_url_tokens.
  destruct (request_line_tokens request) as [|m [|t rest]]; try done.
  intros [= ->]. by exists m, rest.
Qed.

Lemma get_url_nonempty request target :
  get_url request = Ok target -> request <> [].
Proof. by intros Hu ->. Qed.

(** C5: [get_status_code] answers the second token of the status line, so
    ["304"] for a 304 response; on the empty response it raises
    [IndexError] instead of answering the empty bytes: [split] never
    returns an empty list, so the [if lines] guard always passes and
    [lines[0].split()[1]] is evaluated on an empty token list. *)
Theorem get_status_code_spec :
  (forall response first second rest,
     status_line_tokens response = first :: second :: rest ->
     get_status_code response = Ok second)
  /\ get_status_code (B "HTTP/1.1 304 Not Modified" ++ CRLF ++ CRLF)
     = Ok (B "304")
  /\ split CRLF (B "") = [B ""]
  /\ get_status_code (B "") = Raise IndexError.
Proof.
  split.
  { intros response first second rest E.
    by rewrite get_status_code_tokens, E. }
  repeat split; reflexivity.
Qed.

(** ** [get_last_modified] *)

Lemma lower_byte_colon c : lower_byte c = ":"%char -> c = ":"%char.
Proof.
  destruct c as [[] [] [] [] [] [] [] []]; intros Hc;
    first [reflexivity | discriminate Hc].
Qed.

Lemma is_last_modified_line_colon line :
  is_last_modified_line line = true ->
  exists name value, line = name ++ ":"%char :: value /\ ":"%char ∉ name.
Proof.
  unfold is_last_modified_line, lower_bytes. intros Hl.
  apply (startswith_lookup _ _ 13%nat ":"%char) in Hl; [|reflexivity].
  rewrite list_lookup_fmap in Hl.
  apply fmap_Some in Hl as (c & E & Hc).
  symmetry in Hc. apply lower_byte_colon in Hc as ->.
  apply list_elem_of_lookup_2 in E.
  apply list_elem_of_split_l in E as (name & value & -> & Hn).
  by exists name, value.
Qed.

Lemma get_last_modified_lines_none lines now :
  (forall line, line ∈ lines -> is_last_modified_line line = false) ->
  get_last_modified_lines lines now = Raise TypeError.
Proof.
  induction lines as [|l lines IH]; intros Hno; simpl; [done|].
  rewrite Hno by set_solver. apply IH. intros. apply Hno. set_solver.
Qed.

Lemma get_last_modified_lines_first pre name value post now :
  (forall l, l ∈ pre -> is_last_modified_line l = false) ->
  is_last_modified_line (name ++ ":"%char :: value) = true ->
  ":"%char ∉ name ->
  get_last_modified_lines (pre ++ (name ++ ":"%char :: value) :: post) now
  = Ok (PyBytes (strip isspace_byte value)).
Proof.
  induction pre as [|l pre IH]; intros Hno Hl Hn; simpl.
  - rewrite Hl. unfold split1. change (B ":") with [":"%char].
    by rewrite find_sep_first.
  - rewrite Hno by set_solver. apply IH; [|done..].
    intros. apply Hno. set_solver.
Qed.

(** C6: the scan for the header works: the first line that starts with
    "last-modified:" in any letter case gives its value, stripped.  For a
    response without such a line [get_last_modified] raises [TypeError]
    instead of answering the current time as an HTTP date: line 309 hands
    [time.strftime] a [bytes] format.  With the same format as a [str],
    [time.strftime] does produce that date. *)
Theorem get_last_modified_spec :
  (forall response now pre line post,
     split CRLF response = pre ++ line :: post ->
     (forall l, l ∈ pre -> is_last_modified_line l = false) ->
     is_last_modified_line line = true ->
     exists name value,
       line = name ++ ":"%char :: value /\ (":"%char ∉ name)
       /\ get_last_modified response now
          = Ok (PyBytes (strip isspace_byte value)))
  /\ (forall response now,
        (forall line, line ∈ split CRLF response ->
                      is_last_modified_line line = false) ->
        get_last_modified response now = Raise TypeError)
  /\ (forall now,
        get_last_modified (B "HTTP/1.1 200 OK" ++ CRLF ++ CRLF ++ B "hello") now
        = Raise TypeError)
  /\ time_strftime (PyStr (U http_date_format))
       {| tm_year := 2024; tm_mon := 1; tm_mday := 1; tm_hour := 0;
          tm_min := 0; tm_sec := 0; tm_wday := 0 |}
     = Ok (PyStr (U "Mon, 01 Jan 2024 00:00:00 GMT")).
Proof.
  split.
  { intros response now pre line post Hs Hpre Hl.
    destruct (is_last_modified_line_colon _ Hl) as (name & value & -> & Hn).
    exists name, value. split; [done|]. split; [done|].
    unfold get_last_modified. rewrite Hs.
    by apply get_last_modified_lines_first. }
  split.
  { intros response now Hno. by apply get_last_modified_lines_none. }
  split; [|reflexivity].
  intros now. reflexivity.
Qed.


(** ** Running the server code *)

Arguments decode : simpl never.
Arguments encode : simpl never.
Arguments get_url : simpl never.
Arguments get_host : simpl never.
Arguments get_status_code : simpl never.
Arguments get_last_modified : simpl never.
Arguments contains : simpl never.
Arguments blocked_response : simpl never.
Arguments established : simpl never.
Arguments conditional_request_for : simpl never.
Arguments U : simpl never.
Arguments B : simpl never.

Ltac unfold_M :=
  unfold mbind, M_bind, mret, M_ret, recv, send, sendall, close, connect,
    _update_cb, emit, lift, cache_has, cache_get, cache_set.

Lemma until_close_app rs rest :
  until_close (rs ++ rest)
  = match until_close rs with
    | (before, Some s) => (before, Some s)
    | (before, None) =>
        let '(more, closer) := until_close rest in (before ++ more, closer)
    end.
Proof.
  induction rs as [|[s [|b data]] rs IH]; simpl.
  - by destruct (until_close rest).
  - done.
  - rewrite IH. destruct (until_close rs) as [before [s'|]]; [done|].
    by destruct (until_close rest).
Qed.

Lemma until_close_first before s after :
  Forall (fun r => r.2 <> []) before ->
  until_close (before ++ (s, []) :: after) = (before, Some s).
Proof.
  induction 1 as [|[s' [|b data]] before Hne _ IH]; simpl; [done|done|].
  by rewrite IH.
Qed.

Lemma until_close_open rs :
  Forall (fun r => r.2 <> []) rs -> until_close rs = (rs, None).
Proof.
  induction 1 as [|[s' [|b data]] rs Hne _ IH]; simpl; [done|done|].
  by rewrite IH.
Qed.

Lemma forwarded_app rs rs' : forwarded (rs ++ rs') = forwarded rs ++ forwarded rs'.
Proof. apply bind_app. Qed.

(** One [select] round: the buffers are forwarded until an empty read. *)
Lemma relay_round_run ready cache :
  relay_round ready cache
  = Result (forwarded (until_close ready).1 ++ closing (until_close ready).2)
           (Ok (bool_decide (is_Some (until_close ready).2)))
           cache.
Proof.
  induction ready as [|[s [|b data]] ready IH]; [done|by destruct s|].
  destruct s; simpl; unfold_M; simpl; rewrite IH;
    by destruct (until_close ready) as [before closer].
Qed.

Lemma socket_calls_app tr tr' :
  socket_calls (tr ++ tr') = socket_calls tr ++ socket_calls tr'.
Proof. apply List.filter_app. Qed.

Lemma socket_calls_forwarded rs : socket_calls (forwarded rs) = forwarded rs.
Proof.
  induction rs as [|[s data] rs IH]; [done|].
  unfold forwarded in *. rewrite bind_cons. simpl. by rewrite IH.
Qed.

Lemma socket_calls_closing closer : socket_calls (closing closer) = closing closer.
Proof. by destruct closer. Qed.

(** The relay loop: what it does is decided by the reads up to the first
    empty one; it returns exactly when there is an empty read, and it
    leaves the cache alone. *)
Lemma relay_https_run rounds cache :
  let r := relay_https rounds cache in
  socket_calls (events r)
  = forwarded (until_close (reads rounds)).1
    ++ closing (until_close (reads rounds)).2
  /\ value r = match (until_close (reads rounds)).2 with
               | Some _ => Ok tt
               | None => Block
               end
  /\ store r = cache.
Proof.
  induction rounds as [|ready rounds IH]; [done|].
  simpl in IH. simpl. unfold_M. simpl. rewrite relay_round_run. simpl.
  unfold reads in *. simpl. rewrite until_close_app.
  destruct (until_close ready) as [before [s|]]; simpl.
  - rewrite app_nil_r, socket_calls_app, socket_calls_forwarded. done.
  - destruct IH as (IHe & IHv & IHs).
    destruct (until_close (concat rounds)) as [more closer]. simpl in *.
    rewrite app_nil_r, socket_calls_app, socket_calls_forwarded, IHe.
    rewrite forwarded_app, <- app_assoc. done.
Qed.


Lemma sent_to_app s tr tr' : sent_to s (tr ++ tr') = sent_to s tr ++ sent_to s tr'.
Proof. apply bind_app. Qed.

Lemma sent_to_socket_calls s tr : sent_to s (socket_calls tr) = sent_to s tr.
Proof.
  induction tr as [|e tr IH]; [done|].
  destruct e; unfold socket_calls; simpl; fold (socket_calls tr);
    unfold sent_to in *; rewrite ?bind_cons, IH; done.
Qed.

Lemma sent_to_forwarded s rs :
  sent_to (other s) (forwarded rs) = read_from s rs.
Proof.
  induction rs as [|[s' data] rs IH]; [done|].
  unfold sent_to, forwarded, read_from in *.
  rewrite !bind_cons, bind_app, IH. by destruct s, s'.
Qed.

Lemma sent_to_closing s closer : sent_to s (closing closer) = [].
Proof. by destruct closer. Qed.

(** C8: the relay hands every non-empty buffer it reads to [send] on the
    other socket, unchanged and in the order of the reads; the first empty
    read makes it close both sockets and return, and nothing is read after
    it. *)
Theorem relay_forwards_until_close rounds cache before s after :
  reads rounds = before ++ (s, []) :: after ->
  Forall (fun r => r.2 <> []) before ->
  let r := relay_https rounds cache in
  socket_calls (events r)
  = forwarded before ++ [ERecv s []; EClose Client; EClose Origin]
  /\ sent_to Origin (events r) = read_from Client before
  /\ sent_to Client (events r) = read_from Origin before
  /\ value r = Ok tt
  /\ store r = cache.
Proof.
  intros Hreads Hbefore r.
  destruct (relay_https_run rounds cache) as (He & Hv & Hs). fold r in He, Hv, Hs.
  rewrite Hreads, until_close_first in He, Hv by done. simpl in He, Hv.
  split; [done|]. 
  rewrite <- (sent_to_socket_calls Origin), <- (sent_to_socket_calls Client), He.
  rewrite !sent_to_app.
  rewrite (sent_to_forwarded Client), (sent_to_forwarded Origin), !app_nil_r.
  done.
Qed.

(** The relay opens no connection. *)
Lemma relay_no_connect rounds cache host port :
  EConnect host port ∉ events (relay_https rounds cache).
Proof.
  intros Hin.
  assert (EConnect host port
          ∈ socket_calls (events (relay_https rounds cache))) as Hcall.
  { apply list_elem_of_In, List.filter_In. split; [|done].
    by apply list_elem_of_In. }
  destruct (relay_https_run rounds cache) as (He & _ & _).
  cbn zeta in He. rewrite He in Hcall.
  apply elem_of_app in Hcall as [Hf|Hc].
  - unfold forwarded in Hf.
    apply list_elem_of_bind in Hf as ([s data] & Hin' & _).
    apply elem_of_cons in Hin' as [Heq|Hin']; [discriminate Heq|].
    apply elem_of_cons in Hin' as [Heq|Hin']; [discriminate Heq|].
    by apply elem_of_nil in Hin'.
  - destruct ((until_close (reads rounds)).2) as [s|]; simpl in Hc.
    + apply elem_of_cons in Hc as [Heq|Hc]; [discriminate Heq|].
      apply elem_of_cons in Hc as [Heq|Hc]; [discriminate Heq|].
      apply elem_of_cons in Hc as [Heq|Hc]; [discriminate Heq|].
      by apply elem_of_nil in Hc.
    + by apply elem_of_nil in Hc.
Qed.

(** While no read is empty the relay keeps going: it has forwarded every
    buffer and waits in [select]. *)
Lemma relay_waits rounds cache :
  Forall (fun r => r.2 <> []) (reads rounds) ->
  let r := relay_https rounds cache in
  socket_calls (events r) = forwarded (reads rounds)
  /\ value r = Block
  /\ store r = cache.
Proof.
  intros Hopen r.
  destruct (relay_https_run rounds cache) as (He & Hv & Hs). fold r in He, Hv, Hs.
  rewrite until_close_open in He, Hv by done. simpl in He, Hv.
  by rewrite app_nil_r in He.
Qed.

(** ** The forwarding client *)

(** [recv_all] when the peer sends the chunks [body] and then closes. *)
Lemma recv_all_from_closed body rest data cache :
  Forall (fun chunk : bytes => chunk <> []) body ->
  recv_all_from (body ++ [] :: rest) data cache
  = Result ((ERecv Origin <$> body) ++ [ERecv Origin []])
           (Ok (data ++ concat body)) cache.
Proof.
  intros Hbody. revert data.
  induction Hbody as [|[|b chunk] body Hne _ IH]; intros data.
  - simpl. unfold_M. simpl. by rewrite app_nil_r.
  - done.
  - simpl. unfold_M. simpl. rewrite IH. simpl. by rewrite <- app_assoc.
Qed.

Lemma forward_to_server_probe env request host data cache :
  get_host request = Ok host ->
  encode request = Ok data ->
  forward_to_server env request true cache
  = Result [EConnect host HTTP_PORT; ESendAll Origin data;
            ERecv Origin (probe_data env); EClose Origin]
           (Ok (probe_data env)) cache.
Proof.
  intros Hh He. unfold forward_to_server. unfold_M. simpl.
  rewrite Hh. simpl. rewrite He. done.
Qed.

Lemma forward_to_server_full env request host data body rest cache :
  get_host request = Ok host ->
  encode request = Ok data ->
  fetch_data env = body ++ [] :: rest ->
  Forall (fun chunk : bytes => chunk <> []) body ->
  forward_to_server env request false cache
  = Result ([EConnect host HTTP_PORT; ESendAll Origin data]
            ++ (ERecv Origin <$> body) ++ [ERecv Origin []; EClose Origin])
           (Ok (concat body)) cache.
Proof.
  intros Hh He Hf Hbody. unfold forward_to_server. unfold_M. simpl.
  rewrite Hh. simpl. rewrite He. simpl.
  unfold recv_all. rewrite Hf, recv_all_from_closed by done. simpl.
  by rewrite <- app_assoc.
Qed.

(** ** The connection handler *)

(** A request whose method is CONNECT contains the characters CONNECT. *)
Lemma method_connect_contains request rest :
  request_line_tokens request = U "CONNECT" :: rest ->
  contains (U "CONNECT") request = true.
Proof.
  unfold request_line_tokens.
  destruct (split uCRLF request) as [|line0 more] eqn:E; [done|].
  intros Ht. apply split_head in E as [k ->].
  assert (U "CONNECT" ∈ split_ws isspace_cp line0) as Hin
    by (rewrite Ht; set_solver).
  apply split_ws_infix in Hin as (a & b & ->).
  apply contains_infix. exists a, (b ++ k). by rewrite <- !app_assoc.
Qed.

(** ** Running the handler step by step *)

Lemma bind_ok {A B} (m : M A) (k : A -> M B) c ev a c' :
  m c = Result ev (Ok a) c' -> (m ≫= k) c = after ev (k a c').
Proof. intros Hm. unfold mbind, M_bind. by rewrite Hm. Qed.

Lemma bind_raise {A B} (m : M A) (k : A -> M B) c ev e c' :
  m c = Result ev (Raise e) c' -> (m ≫= k) c = Result ev (Raise e) c'.
Proof. intros Hm. unfold mbind, M_bind. by rewrite Hm. Qed.

Lemma bind_block {A B} (m : M A) (k : A -> M B) c ev c' :
  m c = Result ev Block c' -> (m ≫= k) c = Result ev Block c'.
Proof. intros Hm. unfold mbind, M_bind. by rewrite Hm. Qed.

Lemma bind_assoc {A B C} (m : M A) (k1 : A -> M B) (k2 : B -> M C) c :
  ((m ≫= k1) ≫= k2) c = (m ≫= (fun a => k1 a ≫= k2)) c.
Proof.
  unfold mbind, M_bind. destruct (m c) as [ev [a| |] c1]; simpl; try done.
  destruct (k1 a c1) as [ev1 [b| |] c2]; simpl; try done.
  by rewrite app_assoc.
Qed.

Lemma after_after {A} ev ev' (r : result A) :
  after ev (after ev' r) = after (ev ++ ev') r.
Proof. unfold after. simpl. by rewrite app_assoc. Qed.

Lemma after_result {A} ev ev' (v : outcome A) c :
  after ev (Result ev' v c) = Result (ev ++ ev') v c.
Proof. done. Qed.

Lemma cache_has_Some key c e :
  c !! key = Some e -> cache_has key c = Result [] (Ok true) c.
Proof. intros Hc. unfold cache_has. by rewrite Hc. Qed.

Lemma cache_has_None key c :
  c !! key = None -> cache_has key c = Result [] (Ok false) c.
Proof. intros Hc. unfold cache_has. by rewrite Hc. Qed.

Lemma cache_get_Some key c e :
  c !! key = Some e -> cache_get key c = Result [] (Ok e) c.
Proof. intros Hc. unfold cache_get. by rewrite Hc. Qed.

(** One statement of the handler that ends normally. *)
Ltac finish :=
  unfold after; cbn [events value store app];
  rewrite ?app_nil_r, <- ?app_assoc; try done.
Ltac chain := rewrite ?bind_assoc; cbn beta iota zeta.
Ltac step := chain; erewrite bind_ok by reflexivity; cbn beta iota zeta.
Ltac step_by H :=
  chain; erewrite bind_ok by (eapply H; eassumption); cbn beta iota zeta.

Lemma handle_https_run env request host cache :
  get_host request = Ok host ->
  handle_https env request cache
  = after [EConnect host HTTPS_PORT; ESend Client established]
          (relay_https (tunnel_data env) cache).
Proof.
  intros Hh. unfold handle_https. rewrite Hh. do 3 step.
  by rewrite !after_after.
Qed.

(** The handler up to the classification of the request: the request is
    received, decoded and logged, and target and host are extracted. *)
Ltac run_parse Hd Hu Hh Hne :=
  unfold handle_request; cbn zeta;
  step; rewrite Hd; do 2 step;
  rewrite bool_decide_eq_false_2 by exact Hne;
  rewrite Hu; step; rewrite Hh; step.


(** The blocked path of [handle_request]. *)
Lemma blocked_path blocked_urls env cache request target_url :
  decode (client_data env) = Ok request ->
  get_url request = Ok target_url ->
  target_url ∈ blocked_urls ->
  handle_request blocked_urls env cache
  = Result ([ERecv Client (client_data env); ELog (LogRequest request)]
            ++ (if contains (U "CONNECT") request
                then [ESend Client established] else [])
            ++ [ESendAll Client blocked_response; ELog LogClosed;
                EClose Client])
           (Ok tt) cache.
Proof.
  intros Hd Hu Hb.
  destruct (get_host_total request) as [host Hh].
  pose proof (get_url_nonempty _ _ Hu) as Hne.
  run_parse Hd Hu Hh Hne.
  rewrite bool_decide_eq_true_2 by done.
  destruct (contains (U "CONNECT") request); repeat step; reflexivity.
Qed.

(** C1, as the code has it: a request for a blocked target is answered
    with the fixed 403 response: no connection to a target server is
    opened, whatever the cache holds, and the cache is not touched.  The
    line "200 Connection Established" is sent first exactly when the
    characters CONNECT stand anywhere in the request text, as they do in a
    request whose method is CONNECT; otherwise the 403 response is all the
    client is sent. *)
Theorem blocked_request_gets_403 blocked_urls env cache request target_url :
  decode (client_data env) = Ok request ->
  get_url request = Ok target_url ->
  target_url ∈ blocked_urls ->
  let r := handle_request blocked_urls env cache in
  events r
  = [ERecv Client (client_data env); ELog (LogRequest request)]
    ++ (if contains (U "CONNECT") request
        then [ESend Client established] else [])
    ++ [ESendAll Client blocked_response; ELog LogClosed; EClose Client]
  /\ value r = Ok tt
  /\ store r = cache
  /\ (forall rest,
        request_line_tokens request = U "CONNECT" :: rest ->
        contains (U "CONNECT") request = true)
  /\ established = B "HTTP/1.1 200 Connection Established" ++ CRLF ++ CRLF
  /\ blocked_response
     = B "HTTP/1.1 403 Forbidden" ++ CRLF
       ++ B "Content-Type: text/html" ++ CRLF ++ CRLF
       ++ B "<html><head><title>403 Forbidden</title></head><body><h1>403 Forbidden</h1><p>This page has been blocked by the proxy server.</p></body></html>".
Proof.
  intros Hd Hu Hb r. subst r.
  rewrite (blocked_path _ _ _ _ _ Hd Hu Hb). cbn.
  repeat split. intros rest. apply method_connect_contains.
Qed.

(** A blocked GET whose target holds the characters CONNECT: the method
    is not CONNECT, and yet the client is sent the line "200 Connection
    Established" before the 403 response. *)
Lemma blocked_get_sent_established :
  let target := U "http://example.com/CONNECT" in
  let request :=
    U "GET http://example.com/CONNECT HTTP/1.1" ++ uCRLF
    ++ U "Host: example.com" ++ uCRLF ++ uCRLF in
  let env := sample_env sample_get_connect [] [] [] in
  let r := handle_request {[target]} env ∅ in
  decode (client_data env) = Ok request
  /\ request_line_tokens request = [U "GET"; target; U "HTTP/1.1"]
  /\ events r
     = [ERecv Client sample_get_connect; ELog (LogRequest request);
        ESend Client established; ESendAll Client blocked_response;
        ELog LogClosed; EClose Client]
  /\ events r
     <> [ERecv Client sample_get_connect; ELog (LogRequest request);
         ESendAll Client blocked_response; ELog LogClosed; EClose Client].
Proof.
  cbn zeta.
  assert (decode (client_data (sample_env sample_get_connect [] [] []))
          = Ok (U "GET http://example.com/CONNECT HTTP/1.1" ++ uCRLF
                ++ U "Host: example.com" ++ uCRLF ++ uCRLF)) as Hd
    by reflexivity.
  split; [exact Hd|]. split; [reflexivity|].
  rewrite (blocked_path {[U "http://example.com/CONNECT"]} _ ∅ _
             (U "http://example.com/CONNECT") Hd eq_refl)
    by (by apply elem_of_singleton).
  split; [reflexivity|discriminate].
Qed.

(** The tunnel path: a request that is neither blocked nor cached and
    contains CONNECT opens a connection to port 443, announces it to the
    client and relays; the cache stays as it was. *)
Lemma tunnel_path blocked_urls env cache request target_url :
  decode (client_data env) = Ok request ->
  get_url request = Ok target_url ->
  target_url ∉ blocked_urls ->
  cache !! target_url = None ->
  contains (U "CONNECT") request = true ->
  let r := handle_request blocked_urls env cache in
  let t := relay_https (tunnel_data env) cache in
  exists host,
    get_host request = Ok host
    /\ events r
       = [ERecv Client (client_data env); ELog (LogRequest request);
          EConnect host HTTPS_PORT; ESend Client established]
         ++ events t
         ++ match value t with
            | Ok _ => [ELog LogClosed; EClose Client]
            | _ => []
            end
    /\ value r = value t
    /\ store r = cache.
Proof.
  intros Hd Hu Hb Hc Hcon r t. subst r t.
  destruct (get_host_total request) as [host Hh]. exists host.
  split; [done|].
  pose proof (get_url_nonempty _ _ Hu) as Hne.
  destruct (relay_https_run (tunnel_data env) cache) as (_ & _ & Hs).
  cbn zeta in Hs.
  run_parse Hd Hu Hh Hne.
  rewrite bool_decide_eq_false_2 by done. chain.
  step_by cache_has_None. rewrite Hcon. cbn iota.
  pose proof (handle_https_run env _ _ cache Hh) as Ht.
  destruct (relay_https (tunnel_data env) cache) as [ev v st].
  cbn in Hs. subst st. rewrite after_result in Ht.
  destruct v as [[]| |].
  - erewrite bind_ok by exact Ht. repeat step. cbn. done.
  - erewrite bind_raise by exact Ht. cbn. by rewrite app_nil_r.
  - erewrite bind_block by exact Ht. cbn. by rewrite app_nil_r.
Qed.

(** On the tunnel path no connection to the HTTP port is opened: there is
    no plain fetch. *)
Lemma tunnel_path_no_fetch blocked_urls env cache request target_url :
  decode (client_data env) = Ok request ->
  get_url request = Ok target_url ->
  target_url ∉ blocked_urls ->
  cache !! target_url = None ->
  contains (U "CONNECT") request = true ->
  forall host, EConnect host HTTP_PORT ∉ events (handle_request blocked_urls env cache).
Proof.
  intros Hd Hu Hb Hc Hcon host' Hin.
  destruct (tunnel_path _ _ _ _ _ Hd Hu Hb Hc Hcon) as (host & _ & He & _).
  cbn zeta in He. rewrite He in Hin. clear He.
  apply elem_of_app in Hin as [Hin|Hin].
  { apply elem_of_cons in Hin as [Heq|Hin]; [discriminate Heq|].
    apply elem_of_cons in Hin as [Heq|Hin]; [discriminate Heq|].
    apply elem_of_cons in Hin as [Heq|Hin]; [by injection Heq|].
    apply elem_of_cons in Hin as [Heq|Hin]; [discriminate Heq|].
    by apply elem_of_nil in Hin. }
  apply elem_of_app in Hin as [Hin|Hin].
  { by apply relay_no_connect in Hin. }
  destruct (value (relay_https (tunnel_data env) cache)).
  - apply elem_of_cons in Hin as [Heq|Hin]; [discriminate Heq|].
    apply elem_of_cons in Hin as [Heq|Hin]; [discriminate Heq|].
    by apply elem_of_nil in Hin.
  - by apply elem_of_nil in Hin.
  - by apply elem_of_nil in Hin.
Qed.

(** C9: a CONNECT request for a target that is neither blocked nor cached
    opens the tunnel and runs the relay, and the cache after the handler
    is the cache before it, whether the relay returns or waits for ever. *)
Theorem connect_leaves_cache blocked_urls env cache request target_url rest :
  decode (client_data env) = Ok request ->
  request_line_tokens request = U "CONNECT" :: target_url :: rest ->
  target_url ∉ blocked_urls ->
  cache !! target_url = None ->
  let r := handle_request blocked_urls env cache in
  let t := relay_https (tunnel_data env) cache in
  exists host,
    get_host request = Ok host
    /\ events r
       = [ERecv Client (client_data env); ELog (LogRequest request);
          EConnect host HTTPS_PORT; ESend Client established]
         ++ events t
         ++ match value t with
            | Ok _ => [ELog LogClosed; EClose Client]
            | _ => []
            end
    /\ value r = value t
    /\ store r = cache
    /\ (forall h, EConnect h HTTP_PORT ∉ events r).
Proof.
  intros Hd Ht Hb Hc r t.
  pose proof (get_url_second _ _ _ _ Ht) as Hu.
  pose proof (method_connect_contains _ _ Ht) as Hcon.
  destruct (tunnel_path _ _ _ _ _ Hd Hu Hb Hc Hcon)
    as (host & Hh & He & Hv & Hs).
  exists host. repeat split; try done.
  by apply (tunnel_path_no_fetch _ _ _ request target_url).
Qed.


(** C10: CONNECT is looked for anywhere in the request text, not in the
    method.  The sample request is a GET whose target contains CONNECT:
    when its target is blocked, "200 Connection Established" is sent
    before the 403 response; when it is neither blocked nor cached, the
    handler takes the tunnel path (port 443 and the relay) and makes no
    HTTP fetch. *)
Theorem connect_test_is_substring :
  exists request target,
    decode sample_get_connect = Ok request
    /\ request_line_tokens request = [U "GET"; target; U "HTTP/1.1"]
    /\ contains (U "CONNECT") request = true
    /\ (forall env blocked_urls cache,
          client_data env = sample_get_connect ->
          target ∈ blocked_urls ->
          handle_request blocked_urls env cache
          = Result [ERecv Client sample_get_connect; ELog (LogRequest request);
                    ESend Client established;
                    ESendAll Client blocked_response;
                    ELog LogClosed; EClose Client]
                   (Ok tt) cache)
    /\ (forall env blocked_urls cache,
          client_data env = sample_get_connect ->
          target ∉ blocked_urls ->
          cache !! target = None ->
          let r := handle_request blocked_urls env cache in
          let t := relay_https (tunnel_data env) cache in
          events r
          = [ERecv Client sample_get_connect; ELog (LogRequest request);
             EConnect (U "example.com") HTTPS_PORT;
             ESend Client established]
            ++ events t
            ++ match value t with
               | Ok _ => [ELog LogClosed; EClose Client]
               | _ => []
               end
          /\ value r = value t
          /\ store r = cache
          /\ (forall h, EConnect h HTTP_PORT ∉ events r)).
Proof.
  exists (U "GET http://example.com/CONNECT HTTP/1.1" ++ uCRLF
          ++ U "Host: example.com" ++ uCRLF ++ uCRLF),
         (U "http://example.com/CONNECT").
  assert (decode sample_get_connect
          = Ok (U "GET http://example.com/CONNECT HTTP/1.1" ++ uCRLF
                ++ U "Host: example.com" ++ uCRLF ++ uCRLF)) as Hd
    by reflexivity.
  split; [done|]. split; [reflexivity|]. split; [reflexivity|]. split.
  - intros env blocked_urls cache Henv Hb. rewrite <- Henv in Hd.
    rewrite (blocked_path _ _ _ _ _ Hd eq_refl Hb), Henv. done.
  - intros env blocked_urls cache Henv Hb Hc r t. rewrite <- Henv in Hd.
    destruct (tunnel_path _ _ _ _ _ Hd eq_refl Hb Hc eq_refl)
      as (host & Hh & He & Hv & Hs).
    injection Hh as <-. rewrite Henv in He. repeat split; try done.
    by eapply (tunnel_path_no_fetch _ _ _ _ (U "http://example.com/CONNECT")).
Qed.

(** The handler on the empty request and on a request without a target. *)
Lemma empty_path blocked_urls env cache :
  decode (client_data env) = Ok [] ->
  handle_request blocked_urls env cache
  = Result [ERecv Client (client_data env); ELog (LogRequest []);
            EClose Client]
           (Ok tt) cache.
Proof.
  intros Hd. unfold handle_request. cbn zeta.
  step. rewrite Hd. do 2 step. reflexivity.
Qed.

Lemma malformed_path blocked_urls env cache request :
  decode (client_data env) = Ok request ->
  request <> [] ->
  get_url request = Raise IndexError ->
  handle_request blocked_urls env cache
  = Result [ERecv Client (client_data env); ELog (LogRequest request)]
           (Raise IndexError) cache.
Proof.
  intros Hd Hne Hu. unfold handle_request. cbn zeta.
  step. rewrite Hd. do 2 step.
  rewrite bool_decide_eq_false_2 by done.
  rewrite Hu. erewrite bind_raise by reflexivity. reflexivity.
Qed.

(** C4, as the code has it: on a request line with fewer than two tokens
    [get_url] raises [IndexError].  The empty request never reaches
    [get_url]: the handler closes the client socket and returns.  On any
    other such request the handler ends with that error right after
    logging the request: it sends nothing, opens no connection, leaves
    the cache as it was, and does not call [close] on the client socket.
    The listener goes on with the connections that follow. *)
Theorem malformed_request_aborts blocked_urls env cache request later :
  decode (client_data env) = Ok request ->
  (length (request_line_tokens request) < 2)%nat ->
  let r := handle_request blocked_urls env cache in
  get_url request = Raise IndexError
  /\ (request = [] ->
      events r = [ERecv Client (client_data env); ELog (LogRequest []);
                  EClose Client]
      /\ value r = Ok tt)
  /\ (request <> [] ->
      events r = [ERecv Client (client_data env); ELog (LogRequest request)]
      /\ value r = Raise IndexError)
  /\ store r = cache
  /\ start blocked_urls (env :: later) cache
     = r :: start blocked_urls later cache.
Proof.
  intros Hd Hshort r. subst r.
  pose proof (get_url_short _ Hshort) as Hu.
  split; [done|].
  destruct (decide (request = [])) as [->|Hne].
  - cbn. rewrite (empty_path _ _ _ Hd). cbn. by repeat split.
  - cbn. rewrite (malformed_path _ _ _ _ Hd Hne Hu). cbn. by repeat split.
Qed.

(** The request ["GET"] has a one-token request line; the handler ends with
    [IndexError] and its trace holds no [close] of the client socket. *)
Lemma malformed_request_not_closed :
  let env := sample_env (B "GET") [] [] [] in
  let r := handle_request ∅ env ∅ in
  decode (client_data env) = Ok (U "GET")
  /\ request_line_tokens (U "GET") = [U "GET"]
  /\ events r = [ERecv Client (B "GET"); ELog (LogRequest (U "GET"))]
  /\ value r = Raise IndexError
  /\ EClose Client ∉ events r.
Proof.
  assert (decode (client_data (sample_env (B "GET") [] [] [])) = Ok (U "GET"))
    as Hd by reflexivity.
  cbn. rewrite (malformed_path ∅ _ ∅ _ Hd); [|done|reflexivity].
  repeat split. cbn. rewrite !not_elem_of_cons. repeat split; try done.
  apply not_elem_of_nil.
Qed.

(** ** Revalidation *)

(** The conditional GET of a cached target, up to the status code of its
    answer. *)
Lemma revalidation_path blocked_urls env cache request target_url target_host
    e last_modified probe code :
  decode (client_data env) = Ok request ->
  get_url request = Ok target_url ->
  get_host request = Ok target_host ->
  target_url ∉ blocked_urls ->
  cache !! target_url = Some e ->
  decode_method (lastModified e) = Ok last_modified ->
  encode (conditional_request_for target_url target_host last_modified)
  = Ok probe ->
  get_status_code (probe_data env) = Ok code ->
  exists probe_host,
    get_host (conditional_request_for target_url target_host last_modified)
    = Ok probe_host
    /\ let probing :=
         [ERecv Client (client_data env); ELog (LogRequest request);
          EConnect probe_host HTTP_PORT; ESendAll Origin probe;
          ERecv Origin (probe_data env); EClose Origin] in
       let f := forward_to_server env request false cache in
       handle_request blocked_urls env cache
       = if bool_decide (code = B "304") then
           Result (probing
                   ++ [ESendAll Client (rawResponse e);
                       ELog (LogSaved (fetchLatency e
                                       - (end_clock env - start_clock env)));
                       ELog LogClosed; EClose Client])
                  (Ok tt) cache
         else
           Result (probing ++ events f)
                  (match value f with
                   | Ok _ => Raise AttributeError
                   | Raise x => Raise x
                   | Block => Block
                   end)
                  (store f).
Proof.
  intros Hd Hu Hh Hb Hc Hlm Hp Hcode.
  destruct (get_host_total
              (conditional_request_for target_url target_host last_modified))
    as [probe_host Hph].
  exists probe_host. split; [done|]. cbn zeta.
  pose proof (get_url_nonempty _ _ Hu) as Hne.
  run_parse Hd Hu Hh Hne.
  rewrite bool_decide_eq_false_2 by done. chain.
  step_by cache_has_Some. chain.
  step_by cache_get_Some. rewrite Hlm. step.
  step_by forward_to_server_probe. rewrite Hcode. step.
  destruct (bool_decide (code = B "304")); chain.
  - step_by cache_get_Some. step. step_by cache_get_Some. repeat step.
    reflexivity.
  - destruct (forward_to_server env request false cache) as [ev [a| |] st]
      eqn:E.
    + erewrite bind_ok by exact E. cbn beta. chain.
      erewrite bind_raise by reflexivity. finish.
    + erewrite bind_raise by exact E. finish.
    + erewrite bind_block by exact E. finish.
Qed.

(** C2: for a cached target that is not blocked, the answer to the
    conditional GET counts as "not modified" exactly when its status code
    is ["304"].  Then the client is sent the stored [rawResponse], byte
    for byte, and the cache is as before.  With any other status code the
    stored response is not sent: the handler goes on to the full fetch. *)
Theorem revalidation_serves_cached blocked_urls env cache request target_url
    target_host e last_modified probe code :
  decode (client_data env) = Ok request ->
  get_url request = Ok target_url ->
  get_host request = Ok target_host ->
  target_url ∉ blocked_urls ->
  cache !! target_url = Some e ->
  decode_method (lastModified e) = Ok last_modified ->
  encode (conditional_request_for target_url target_host last_modified)
  = Ok probe ->
  get_status_code (probe_data env) = Ok code ->
  let r := handle_request blocked_urls env cache in
  exists probe_host,
    let probing :=
      [ERecv Client (client_data env); ELog (LogRequest request);
       EConnect probe_host HTTP_PORT; ESendAll Origin probe;
       ERecv Origin (probe_data env); EClose Origin] in
    (code = B "304" ->
     events r
     = probing
       ++ [ESendAll Client (rawResponse e);
           ELog (LogSaved (fetchLatency e
                           - (end_clock env - start_clock env)));
           ELog LogClosed; EClose Client]
     /\ value r = Ok tt
     /\ store r = cache
     /\ store r !! target_url = Some e)
    /\ (code <> B "304" ->
        events r
        = probing ++ events (forward_to_server env request false cache)
        /\ value r <> Ok tt).
Proof.
  intros Hd Hu Hh Hb Hc Hlm Hp Hcode r. subst r.
  destruct (revalidation_path _ _ _ _ _ _ _ _ _ _ Hd Hu Hh Hb Hc Hlm Hp Hcode)
    as (probe_host & _ & Hrun).
  exists probe_host. cbn in *. rewrite Hrun. split.
  - intros ->. rewrite bool_decide_eq_true_2 by done. cbn. by repeat split.
  - intros Hne. rewrite bool_decide_eq_false_2 by done. cbn.
    split; [done|].
    by destruct (value (forward_to_server env request false cache)).
Qed.

(** C3, as the code has it after a status code other than ["304"]: the
    full fetch is made, and then line 122 calls [encode] on the response,
    which is a [bytes]: the handler ends with [AttributeError], nothing is
    sent to the client, and the cache keeps the old entry. *)
Theorem fresh_revalidation_raises blocked_urls env cache request target_url
    target_host e last_modified probe code raw body rest :
  decode (client_data env) = Ok request ->
  get_url request = Ok target_url ->
  get_host request = Ok target_host ->
  target_url ∉ blocked_urls ->
  cache !! target_url = Some e ->
  decode_method (lastModified e) = Ok last_modified ->
  encode (conditional_request_for target_url target_host last_modified)
  = Ok probe ->
  get_status_code (probe_data env) = Ok code ->
  code <> B "304" ->
  encode request = Ok raw ->
  fetch_data env = body ++ [] :: rest ->
  Forall (fun chunk : bytes => chunk <> []) body ->
  let r := handle_request blocked_urls env cache in
  exists probe_host,
    events r
    = [ERecv Client (client_data env); ELog (LogRequest request);
       EConnect probe_host HTTP_PORT; ESendAll Origin probe;
       ERecv Origin (probe_data env); EClose Origin;
       EConnect target_host HTTP_PORT; ESendAll Origin raw]
      ++ (ERecv Origin <$> body) ++ [ERecv Origin []; EClose Origin]
    /\ value r = Raise AttributeError
    /\ store r = cache
    /\ store r !! target_url = Some e.
Proof.
  intros Hd Hu Hh Hb Hc Hlm Hp Hcode Hne Hraw Hf Hbody r. subst r.
  destruct (revalidation_path _ _ _ _ _ _ _ _ _ _ Hd Hu Hh Hb Hc Hlm Hp Hcode)
    as (probe_host & _ & Hrun).
  exists probe_host. cbn in *. rewrite Hrun.
  rewrite bool_decide_eq_false_2 by done.
  rewrite (forward_to_server_full _ _ _ _ _ _ _ Hh Hraw Hf Hbody). cbn.
  by repeat split.
Qed.

(** ** The plain fetch *)

(** A request that is neither blocked nor cached and does not contain
    CONNECT: the full fetch, the response sent on, then the cache entry,
    provided [get_last_modified] answers. *)
Lemma fetch_path blocked_urls env cache request target_url target_host raw
    body rest :
  decode (client_data env) = Ok request ->
  get_url request = Ok target_url ->
  get_host request = Ok target_host ->
  target_url ∉ blocked_urls ->
  cache !! target_url = None ->
  contains (U "CONNECT") request = false ->
  encode request = Ok raw ->
  fetch_data env = body ++ [] :: rest ->
  Forall (fun chunk : bytes => chunk <> []) body ->
  let response := concat body in
  let fetching :=
    [ERecv Client (client_data env); ELog (LogRequest request);
     EConnect target_host HTTP_PORT; ESendAll Origin raw]
    ++ (ERecv Origin <$> body)
    ++ [ERecv Origin []; EClose Origin; ESendAll Client response] in
  handle_request blocked_urls env cache
  = match get_last_modified response (gmtime env) with
    | Ok last_modified =>
        Result (fetching ++ [ELog LogClosed; EClose Client]) (Ok tt)
               (<[target_url :=
                    Entry response last_modified
                          (end_clock env - start_clock env)]> cache)
    | Raise x => Result fetching (Raise x) cache
    | Block => Result fetching Block cache
    end.
Proof.
  intros Hd Hu Hh Hb Hc Hcon Hraw Hf Hbody. cbn zeta.
  pose proof (get_url_nonempty _ _ Hu) as Hne.
  run_parse Hd Hu Hh Hne.
  rewrite bool_decide_eq_false_2 by done. chain.
  step_by cache_has_None. rewrite Hcon. chain.
  step_by forward_to_server_full. step.
  destruct (get_last_modified (concat body) (gmtime env)) as [lm| |].
  - repeat step. finish.
  - chain. erewrite bind_raise by reflexivity. finish.
  - chain. erewrite bind_block by reflexivity. finish.
Qed.

(** After a plain fetch whose response has a Last-Modified header, the
    client has been sent the fetched bytes and a lookup of the target
    finds the new entry, whatever the cache held for other targets. *)
Theorem fetch_replaces_entry blocked_urls env cache request target_url
    target_host raw body rest pre name date post :
  decode (client_data env) = Ok request ->
  get_url request = Ok target_url ->
  get_host request = Ok target_host ->
  target_url ∉ blocked_urls ->
  cache !! target_url = None ->
  contains (U "CONNECT") request = false ->
  encode request = Ok raw ->
  fetch_data env = body ++ [] :: rest ->
  Forall (fun chunk : bytes => chunk <> []) body ->
  split CRLF (concat body) = pre ++ (name ++ ":"%char :: date) :: post ->
  (forall l, l ∈ pre -> is_last_modified_line l = false) ->
  is_last_modified_line (name ++ ":"%char :: date) = true ->
  ":"%char ∉ name ->
  let r := handle_request blocked_urls env cache in
  let fresh :=
    Entry (concat body) (PyBytes (strip isspace_byte date))
          (end_clock env - start_clock env) in
  events r
  = [ERecv Client (client_data env); ELog (LogRequest request);
     EConnect target_host HTTP_PORT; ESendAll Origin raw]
    ++ (ERecv Origin <$> body)
    ++ [ERecv Origin []; EClose Origin; ESendAll Client (concat body);
        ELog LogClosed; EClose Client]
  /\ value r = Ok tt
  /\ store r = <[target_url := fresh]> cache
  /\ store r !! target_url = Some fresh.
Proof.
  intros Hd Hu Hh Hb Hc Hcon Hraw Hf Hbody Hs Hpre Hl Hn r fresh.
  subst r fresh.
  rewrite (fetch_path _ _ _ _ _ _ _ _ _ Hd Hu Hh Hb Hc Hcon Hraw Hf Hbody).
  unfold get_last_modified.
  rewrite Hs, (get_last_modified_lines_first _ _ _ _ _ Hpre Hl Hn). cbn.
  rewrite <- !app_assoc. cbn. repeat split.
  apply lookup_insert_eq.
Qed.

(** After a plain fetch whose response has no Last-Modified header, the
    client has been sent the fetched bytes, the handler ends with the
    [TypeError] of [get_last_modified], and the cache has no entry for the
    target. *)
Theorem fetch_undated_raises blocked_urls env cache request target_url
    target_host raw body rest :
  decode (client_data env) = Ok request ->
  get_url request = Ok target_url ->
  get_host request = Ok target_host ->
  target_url ∉ blocked_urls ->
  cache !! target_url = None ->
  contains (U "CONNECT") request = false ->
  encode request = Ok raw ->
  fetch_data env = body ++ [] :: rest ->
  Forall (fun chunk : bytes => chunk <> []) body ->
  (forall l, l ∈ split CRLF (concat body) -> is_last_modified_line l = false) ->
  let r := handle_request blocked_urls env cache in
  events r
  = [ERecv Client (client_data env); ELog (LogRequest request);
     EConnect target_host HTTP_PORT; ESendAll Origin raw]
    ++ (ERecv Origin <$> body)
    ++ [ERecv Origin []; EClose Origin; ESendAll Client (concat body)]
  /\ value r = Raise TypeError
  /\ store r = cache
  /\ store r !! target_url = None.
Proof.
  intros Hd Hu Hh Hb Hc Hcon Hraw Hf Hbody Hno r. subst r.
  rewrite (fetch_path _ _ _ _ _ _ _ _ _ Hd Hu Hh Hb Hc Hcon Hraw Hf Hbody).
  unfold get_last_modified.
  rewrite (get_last_modified_lines_none _ _ Hno). by repeat split.
Qed.

(** ** The theorems at the sample inputs *)

Lemma blocked_request_gets_403_witness :
  let env := sample_env sample_get sample_304 [] [] in
  let cache : gmap str entry := {[sample_target := sample_entry]} in
  let r := handle_request {[sample_target]} env cache in
  decode (client_data env) = Ok sample_get_text
  /\ get_url sample_get_text = Ok sample_target
  /\ events r
     = [ERecv Client sample_get; ELog (LogRequest sample_get_text);
        ESendAll Client blocked_response; ELog LogClosed; EClose Client]
  /\ value r = Ok tt
  /\ store r = cache.
Proof.
  split; [reflexivity|]. split; [reflexivity|].
  destruct (blocked_request_gets_403 {[sample_target]}
              (sample_env sample_get sample_304 [] [])
              {[sample_target := sample_entry]}
              sample_get_text sample_target)
    as (He & Hv & Hs & _);
    [reflexivity|reflexivity|by apply elem_of_singleton_2|].
  split; [exact He|]. split; [exact Hv|exact Hs].
Defined.

Lemma revalidation_serves_cached_witness :
  let env := sample_env sample_get sample_304 [] [] in
  let cache : gmap str entry := {[sample_target := sample_entry]} in
  let r := handle_request ∅ env cache in
  get_status_code (probe_data env) = Ok (B "304")
  /\ (exists probe_host probe,
        events r
        = [ERecv Client sample_get; ELog (LogRequest sample_get_text);
           EConnect probe_host HTTP_PORT; ESendAll Origin probe;
           ERecv Origin sample_304; EClose Origin;
           ESendAll Client (rawResponse sample_entry);
           ELog (LogSaved 20); ELog LogClosed; EClose Client])
  /\ value r = Ok tt
  /\ store r = cache.
Proof.
  split; [reflexivity|].
  destruct (revalidation_serves_cached ∅
              (sample_env sample_get sample_304 [] [])
              {[sample_target := sample_entry]}
              sample_get_text sample_target (U "example.com") sample_entry
              (U "Mon, 01 Jan 2024 00:00:00 GMT")
              (B "GET http://example.com/ HTTP/1.1" ++ CRLF
               ++ B "Host: example.com" ++ CRLF
               ++ B "If-Modified-Since: Mon, 01 Jan 2024 00:00:00 GMT"
               ++ CRLF ++ CRLF)
              (B "304"))
    as (probe_host & H304 & _);
    [reflexivity|reflexivity|reflexivity|apply not_elem_of_empty
    |apply lookup_singleton_eq|reflexivity|reflexivity|reflexivity|].
  destruct (H304 eq_refl) as (He & Hv & Hs & _).
  split; [|split; [exact Hv|exact Hs]].
  eexists _, _. exact He.
Defined.

Lemma fresh_revalidation_raises_witness :
  let env := sample_env sample_get sample_200 [sample_200; []] [] in
  let cache : gmap str entry := {[sample_target := sample_entry]} in
  let r := handle_request ∅ env cache in
  get_status_code (probe_data env) = Ok (B "200")
  /\ value r = Raise AttributeError
  /\ store r !! sample_target = Some sample_entry.
Proof.
  split; [reflexivity|].
  destruct (fresh_revalidation_raises ∅
              (sample_env sample_get sample_200 [sample_200; []] [])
              {[sample_target := sample_entry]}
              sample_get_text sample_target (U "example.com") sample_entry
              (U "Mon, 01 Jan 2024 00:00:00 GMT")
              (B "GET http://example.com/ HTTP/1.1" ++ CRLF
               ++ B "Host: example.com" ++ CRLF
               ++ B "If-Modified-Since: Mon, 01 Jan 2024 00:00:00 GMT"
               ++ CRLF ++ CRLF)
              (B "200") sample_get [sample_200] [])
    as (probe_host & He & Hv & Hs & Hl);
    [reflexivity|reflexivity|reflexivity|apply not_elem_of_empty
    |apply lookup_singleton_eq|reflexivity|reflexivity|reflexivity
    |discriminate|reflexivity|reflexivity
    |constructor; [discriminate|constructor]|].
  split; [exact Hv|exact Hl].
Defined.

Lemma malformed_request_aborts_witness :
  let env := sample_env (B "GET") [] [] [] in
  let r := handle_request ∅ env ∅ in
  decode (client_data env) = Ok (U "GET")
  /\ (length (request_line_tokens (U "GET")) < 2)%nat
  /\ events r = [ERecv Client (B "GET"); ELog (LogRequest (U "GET"))]
  /\ value r = Raise IndexError
  /\ store r = ∅.
Proof.
  split; [reflexivity|]. split; [vm_compute; lia|].
  destruct (malformed_request_aborts ∅ (sample_env (B "GET") [] [] []) ∅
              (U "GET") [])
    as (_ & _ & Hne & Hs & _); [reflexivity|vm_compute; lia|].
  destruct Hne as [He Hv]; [discriminate|].
  split; [exact He|]. split; [exact Hv|exact Hs].
Defined.

Lemma relay_forwards_until_close_witness :
  let r := relay_https sample_tunnel ∅ in
  sent_to Origin (events r) = [B "hello"; B "a"]
  /\ sent_to Client (events r) = [B "b"]
  /\ socket_calls (events r)
     = [ERecv Client (B "hello"); ESend Origin (B "hello");
        ERecv Client (B "a"); ESend Origin (B "a");
        ERecv Origin (B "b"); ESend Client (B "b");
        ERecv Origin []; EClose Client; EClose Origin]
  /\ value r = Ok tt.
Proof.
  destruct (relay_forwards_until_close sample_tunnel ∅
              [(Client, B "hello"); (Client, B "a"); (Origin, B "b")]
              Origin
              [(Client, B "late"); (Client, B "never")])
    as (Hc & Ho & Hcl & Hv & _);
    [reflexivity|repeat (constructor; [discriminate|]); constructor|].
  split; [exact Ho|]. split; [exact Hcl|]. split; [exact Hc|exact Hv].
Defined.

Lemma connect_leaves_cache_witness :
  let env := sample_env sample_connect [] [] sample_tunnel in
  let r := handle_request ∅ env ∅ in
  let t := relay_https sample_tunnel ∅ in
  decode (client_data env) = Ok sample_connect_text
  /\ request_line_tokens sample_connect_text
     = [U "CONNECT"; U "example.com:443"; U "HTTP/1.1"]
  /\ events r
     = [ERecv Client sample_connect; ELog (LogRequest sample_connect_text);
        EConnect (U "example.com") HTTPS_PORT; ESend Client established]
       ++ events t
       ++ match value t with
          | Ok _ => [ELog LogClosed; EClose Client]
          | _ => []
          end
  /\ store r = ∅.
Proof.
  split; [reflexivity|]. split; [reflexivity|].
  destruct (connect_leaves_cache ∅
              (sample_env sample_connect [] [] sample_tunnel) ∅
              sample_connect_text (U "example.com:443") [U "HTTP/1.1"])
    as (host & Hh & He & Hv & Hs & _);
    [reflexivity|reflexivity|apply not_elem_of_empty|apply lookup_empty|].
  injection Hh as <-.
  split; [exact He|exact Hs].
Defined.

Lemma fetch_replaces_entry_witness :
  let env := sample_env sample_get [] [sample_200; []] [] in
  let r := handle_request ∅ env ∅ in
  events r
  = [ERecv Client sample_get; ELog (LogRequest sample_get_text);
     EConnect (U "example.com") HTTP_PORT; ESendAll Origin sample_get;
     ERecv Origin sample_200; ERecv Origin []; EClose Origin;
     ESendAll Client sample_200; ELog LogClosed; EClose Client]
  /\ value r = Ok tt
  /\ store r !! sample_target
     = Some (Entry sample_200
                   (PyBytes (B "Mon, 01 Jan 2024 00:00:00 GMT")) 10).
Proof.
  destruct (fetch_replaces_entry ∅
              (sample_env sample_get [] [sample_200; []] []) ∅
              sample_get_text sample_target (U "example.com") sample_get
              [sample_200] [] [B "HTTP/1.1 200 OK"] (B "Last-Modified")
              (B " Mon, 01 Jan 2024 00:00:00 GMT") [B ""; B "BODY"])
    as (He & Hv & _ & Hl).
  - reflexivity.
  - reflexivity.
  - reflexivity.
  - apply not_elem_of_empty.
  - apply lookup_empty.
  - reflexivity.
  - reflexivity.
  - reflexivity.
  - constructor; [discriminate|constructor].
  - reflexivity.
  - intros l Hin. apply list_elem_of_singleton in Hin as ->. reflexivity.
  - reflexivity.
  - intros Hin. apply list_elem_of_In in Hin. vm_compute in Hin.
    repeat (destruct Hin as [Hin|Hin]; [discriminate Hin|]). exact Hin.
  - split; [exact He|]. split; [exact Hv|exact Hl].
Defined.

Lemma fetch_undated_raises_witness :
  let env := sample_env sample_get [] [sample_200_undated; []] [] in
  let r := handle_request ∅ env ∅ in
  events r
  = [ERecv Client sample_get; ELog (LogRequest sample_get_text);
     EConnect (U "example.com") HTTP_PORT; ESendAll Origin sample_get;
     ERecv Origin sample_200_undated; ERecv Origin []; EClose Origin;
     ESendAll Client sample_200_undated]
  /\ value r = Raise TypeError
  /\ store r !! sample_target = None.
Proof.
  destruct (fetch_undated_raises ∅
              (sample_env sample_get [] [sample_200_undated; []] []) ∅
              sample_get_text sample_target (U "example.com") sample_get
              [sample_200_undated] [])
    as (He & Hv & _ & Hl).
  - reflexivity.
  - reflexivity.
  - reflexivity.
  - apply not_elem_of_empty.
  - apply lookup_empty.
  - reflexivity.
  - reflexivity.
  - reflexivity.
  - constructor; [discriminate|constructor].
  - intros l Hin. apply list_elem_of_In in Hin. vm_compute in Hin.
    repeat (destruct Hin as [<-|Hin]; [reflexivity|]). destruct Hin.
  - split; [exact He|]. split; [exact Hv|exact Hl].
Defined.

Lemma relay_waits_witness :
  let r := relay_https [[(Client, B "hello")]; [(Origin, B "b")]] ∅ in
  socket_calls (events r)
  = [ERecv Client (B "hello"); ESend Origin (B "hello");
     ERecv Origin (B "b"); ESend Client (B "b")]
  /\ value r = Block.
Proof.
  destruct (relay_waits [[(Client, B "hello")]; [(Origin, B "b")]] ∅)
    as (He & Hv & _);
    [repeat (constructor; [discriminate|]); constructor|].
  split; [exact He|exact Hv].
Defined.

(** * Further properties of the code *)

(** ** [recv_all] *)

Lemma recv_all_from_open chunks data cache :
  Forall (fun chunk : bytes => chunk <> []) chunks ->
  recv_all_from chunks data cache
  = Result (ERecv Origin <$> chunks) Block cache.
Proof.
  intros Hopen. revert data.
  induction Hopen as [|[|b chunk] chunks Hne _ IH]; intros data.
  - done.
  - done.
  - simpl. unfold_M. simpl. by rewrite IH.
Qed.

(** [recv_all] returns when the peer closes, and then it returns all the
    chunks received before, joined in order; it has read them and the
    empty answer, nothing after it, and the cache is not touched. *)
Theorem recv_all_closed body rest cache :
  Forall (fun chunk : bytes => chunk <> []) body ->
  recv_all (body ++ [] :: rest) cache
  = Result ((ERecv Origin <$> body) ++ [ERecv Origin []])
           (Ok (concat body)) cache.
Proof. intros Hbody. unfold recv_all. by rewrite recv_all_from_closed. Qed.

(** As long as the peer sends without closing, [recv_all] does not return:
    there is no bound on what it collects and no timeout. *)
Theorem recv_all_open chunks cache :
  Forall (fun chunk : bytes => chunk <> []) chunks ->
  recv_all chunks cache = Result (ERecv Origin <$> chunks) Block cache.
Proof. intros Hopen. unfold recv_all. by apply recv_all_from_open. Qed.

(** ** Failures of [handle_request] before it answers *)

Lemma utf8_decode_cases bs :
  (exists s, utf8_decode bs = Ok s) \/ utf8_decode bs = Raise UnicodeDecodeError.
Proof.
  remember (length bs) as n eqn:Hn. revert bs Hn.
  induction n as [n IH] using lt_wf_ind. intros bs Hn.
  assert (forall r, (length r < n)%nat ->
            forall f : str -> str,
              (exists s, (utf8_decode r ≫= fun s => Ok (f s)) = Ok s)
              \/ (utf8_decode r ≫= fun s => Ok (f s))
                 = Raise UnicodeDecodeError) as Hrec.
  { intros r Hr f. destruct (IH _ Hr r eq_refl) as [[s ->]| ->]; simpl; eauto. }
  destruct bs as [|b0 r0]; simpl; [eauto|]. simpl in Hn.
  destruct (b0 <? 0x80); [apply Hrec; lia|].
  destruct (between 0xC2 0xDF b0).
  { destruct r0 as [|b1 r1]; [eauto|]. simpl in Hn.
    destruct (continuation b1); [apply Hrec; lia|eauto]. }
  destruct (between 0xE0 0xEF b0).
  { destruct r0 as [|b1 [|b2 r2]]; [eauto..|]. simpl in Hn.
    destruct (second_ok b0 b1 && continuation b2); [apply Hrec; lia|eauto]. }
  destruct (between 0xF0 0xF4 b0); [|eauto].
  destruct r0 as [|b1 [|b2 [|b3 r3]]]; [eauto..|]. simpl in Hn.
  destruct (second_ok b0 b1 && continuation b2 && continuation b3);
    [apply Hrec; lia|eauto].
Qed.

(** [decode] answers a text or raises [UnicodeDecodeError]. *)
Lemma decode_cases b :
  (exists s, decode b = Ok s) \/ decode b = Raise UnicodeDecodeError.
Proof. apply utf8_decode_cases. Qed.

(** A request that is not valid UTF-8: [decode] on line 76 raises
    [UnicodeDecodeError]; the handler has only received, it logs nothing,
    sends nothing and does not close the client socket. *)
Theorem undecodable_request_aborts blocked_urls env cache :
  (forall request, decode (client_data env) <> Ok request) ->
  handle_request blocked_urls env cache
  = Result [ERecv Client (client_data env)] (Raise UnicodeDecodeError) cache.
Proof.
  intros Hbad.
  destruct (decode_cases (client_data env)) as [[s Hs]|Hd];
    [by apply Hbad in Hs|].
  unfold handle_request. cbn zeta. step. rewrite Hd.
  erewrite bind_raise by reflexivity. reflexivity.
Qed.

(** A cached target whose conditional GET is answered with a status line
    of fewer than two tokens, as when the target server closes without
    answering: [get_status_code] raises [IndexError] on line 109.  The
    client is sent nothing, although the cache holds a response for it,
    and its socket is not closed; the cache is as before. *)
Theorem revalidation_bad_status blocked_urls env cache request target_url
    target_host e last_modified probe :
  decode (client_data env) = Ok request ->
  get_url request = Ok target_url ->
  get_host request = Ok target_host ->
  target_url ∉ blocked_urls ->
  cache !! target_url = Some e ->
  decode_method (lastModified e) = Ok last_modified ->
  encode (conditional_request_for target_url target_host last_modified)
  = Ok probe ->
  (length (status_line_tokens (probe_data env)) < 2)%nat ->
  exists probe_host,
    handle_request blocked_urls env cache
    = Result [ERecv Client (client_data env); ELog (LogRequest request);
              EConnect probe_host HTTP_PORT; ESendAll Origin probe;
              ERecv Origin (probe_data env); EClose Origin]
             (Raise IndexError) cache.
Proof.
  intros Hd Hu Hh Hb Hc Hlm Hp Hshort.
  destruct (get_host_total
              (conditional_request_for target_url target_host last_modified))
    as [probe_host Hph].
  exists probe_host.
  pose proof (get_url_nonempty _ _ Hu) as Hne.
  assert (get_status_code (probe_data env) = Raise IndexError) as Hcode.
  { rewrite get_status_code_tokens. by apply index_short. }
  run_parse Hd Hu Hh Hne.
  rewrite bool_decide_eq_false_2 by done. chain.
  step_by cache_has_Some. chain.
  step_by cache_get_Some. rewrite Hlm. step.
  step_by forward_to_server_probe. rewrite Hcode. chain.
  erewrite bind_raise by reflexivity. finish.
Qed.

(** A cached target whose stored [lastModified] is not valid UTF-8, which
    is what a fetch stores when the target server sent such a header
    value: line 104 raises [UnicodeDecodeError] before any connection is
    opened.  The cache is as before, so every later request for the
    target ends the same way. *)
Theorem undecodable_last_modified_aborts blocked_urls env cache request
    target_url e stored :
  decode (client_data env) = Ok request ->
  get_url request = Ok target_url ->
  target_url ∉ blocked_urls ->
  cache !! target_url = Some e ->
  lastModified e = PyBytes stored ->
  (forall text, decode stored <> Ok text) ->
  handle_request blocked_urls env cache
  = Result [ERecv Client (client_data env); ELog (LogRequest request)]
           (Raise UnicodeDecodeError) cache.
Proof.
  intros Hd Hu Hb Hc Hlm Hbad.
  destruct (get_host_total request) as [target_host Hh].
  pose proof (get_url_nonempty _ _ Hu) as Hne.
  assert (decode_method (lastModified e) = Raise UnicodeDecodeError) as Hdm.
  { rewrite Hlm. simpl.
    destruct (decode_cases stored) as [[s Hs]|Hs]; [by apply Hbad in Hs|done]. }
  run_parse Hd Hu Hh Hne.
  rewrite bool_decide_eq_false_2 by done. chain.
  step_by cache_has_Some. chain.
  step_by cache_get_Some. rewrite Hdm. chain.
  erewrite bind_raise by reflexivity. finish.
Qed.

(** ** What [get_url] and [get_host] answer *)

Section TokenFacts.
Context {A : Type} `{EqDecision A} (isspace : A -> bool).

Lemma split_ws_aux_tokens cur s t :
  Forall (fun c => isspace c = false) cur ->
  t ∈ split_ws_aux isspace cur s ->
  t <> [] /\ Forall (fun c => isspace c = false) t.
Proof.
  revert cur. induction s as [|c s IH]; intros cur Hcur; simpl.
  - destruct cur as [|x cur]; [by intros ?%elem_of_nil|].
    intros ->%list_elem_of_singleton. split.
    + intros Hr. apply (f_equal length) in Hr.
      rewrite length_reverse in Hr. done.
    + by apply Forall_reverse.
  - destruct (isspace c) eqn:Ec.
    + destruct cur as [|x cur]; [by apply IH|].
      intros [->|Hin]%elem_of_cons; [|by apply (IH []); [constructor|]].
      split.
      * intros Hr. apply (f_equal length) in Hr.
        rewrite length_reverse in Hr. done.
      * by apply Forall_reverse.
    + apply IH. by constructor.
Qed.

(** The tokens of [s.split()] are not empty and hold no whitespace. *)
Lemma split_ws_tokens s t :
  t ∈ split_ws isspace s ->
  t <> [] /\ Forall (fun c => isspace c = false) t.
Proof. by apply split_ws_aux_tokens. Qed.

Lemma lstrip_subset s x : x ∈ lstrip isspace s -> x ∈ s.
Proof.
  induction s as [|c s IH]; simpl; [done|].
  destruct (isspace c); [|done]. intros Hin. right. by apply IH.
Qed.

Lemma strip_subset s x : x ∈ strip isspace s -> x ∈ s.
Proof.
  unfold strip. rewrite elem_of_reverse. intros Hin%lstrip_subset.
  rewrite elem_of_reverse in Hin. by apply lstrip_subset.
Qed.
End TokenFacts.

(** The target [get_url] extracts, which is the cache key and the name
    looked up in the block list: it is never empty, holds no white space
    (so no CR and no LF), and stands in the request as it is. *)
Theorem get_url_target request target :
  get_url request = Ok target ->
  target <> []
  /\ Forall (fun c => isspace_cp c = false) target
  /\ (13 ∉ target) /\ (10 ∉ target)
  /\ exists before after, request = before ++ target ++ after.
Proof.
  intros Hu. apply get_url_Ok_tokens in Hu as (method & rest & Ht).
  unfold request_line_tokens in Ht.
  destruct (split uCRLF request) as [|line0 more] eqn:Hs; [done|].
  apply split_head in Hs as [k ->].
  assert (target ∈ split_ws isspace_cp line0) as Hin by (rewrite Ht; set_solver).
  destruct (split_ws_tokens _ _ _ Hin) as [Hne Hsp].
  split; [done|]. split; [done|].
  rewrite Forall_forall in Hsp.
  split; [|split].
  - intros H13. by apply Hsp in H13.
  - intros H10. by apply Hsp in H10.
  - apply split_ws_infix in Hin as (a & b & ->).
    exists a, (b ++ k). by rewrite <- !app_assoc.
Qed.

Lemma get_host_lines_Ok lines host :
  get_host_lines lines = Ok host ->
  host = U "localhost"
  \/ exists line, line ∈ lines /\ is_host_line line = true
                  /\ host_of_line line = Ok host.
Proof.
  induction lines as [|l lines IH]; simpl.
  - intros [= <-]. by left.
  - destruct (is_host_line l) eqn:El.
    + intros Hl. right. exists l. split; [set_solver|done].
    + intros [->|(line & Hin & Hl & Hh)]%IH; [by left|].
      right. exists line. split; [set_solver|done].
Qed.

(** The host [get_host] extracts never holds a colon: whatever port, or
    IPv6 address, the Host header names, [forward_to_server] and
    [handle_https] connect to the text before its first colon. *)
Theorem get_host_no_colon request host :
  get_host request = Ok host -> 0x3A ∉ host.
Proof.
  intros [->|(line & _ & Hl & Hh)]%get_host_lines_Ok.
  - intros Hin. vm_compute in Hin. apply list_elem_of_In in Hin.
    simpl in Hin. repeat (destruct Hin as [Hin|Hin]; [discriminate Hin|]).
    done.
  - destruct (is_host_line_colon _ Hl) as (name & value & -> & Hn & _).
    destruct (decide (0x3A ∈ strip isspace_cp value)) as [Hin|Hnot].
    + apply list_elem_of_split_l in Hin as (h & p & Hv & Hh').
      rewrite (host_of_line_port _ _ _ _ Hn Hv Hh') in Hh.
      injection Hh as <-. by intros ?%strip_subset.
    + rewrite (host_of_line_plain _ _ Hn Hnot) in Hh. by injection Hh as <-.
Qed.

(** ** [decode] and [encode] *)

Lemma div_mod_digit k q r :
  k <> 0 -> r < k -> (q * k + r) / k = q /\ (q * k + r) mod k = r.
Proof.
  intros Hk Hr. split.
  - symmetry. apply (N.div_unique _ _ _ r); lia.
  - symmetry. apply (N.mod_unique _ _ q); lia.
Qed.

Lemma utf8_encode_cp_1 b0 :
  (b0 <? 0x80) = true -> utf8_encode_cp b0 = Ok [b0].
Proof. intros Hb. unfold utf8_encode_cp. by rewrite Hb. Qed.

Lemma utf8_encode_cp_2 b0 b1 :
  between 0xC2 0xDF b0 = true -> continuation b1 = true ->
  utf8_encode_cp ((b0 - 0xC0) * 64 + (b1 - 0x80)) = Ok [b0; b1].
Proof.
  unfold continuation, between. intros H0 H1. bools.
  destruct (div_mod_digit 64 (b0 - 0xC0) (b1 - 0x80)) as [Hq Hr]; [lia..|].
  unfold utf8_encode_cp.
  destruct (_ <? 0x80) eqn:E1; bools; [lia|].
  destruct (_ <? 0x800) eqn:E2; bools; [|lia].
  rewrite Hq, Hr. do 2 f_equal; [lia|f_equal; lia].
Qed.

Lemma utf8_encode_cp_3 b0 b1 b2 :
  between 0xE0 0xEF b0 = true -> second_ok b0 b1 = true ->
  continuation b2 = true ->
  utf8_encode_cp ((b0 - 0xE0) * 4096 + (b1 - 0x80) * 64 + (b2 - 0x80))
  = Ok [b0; b1; b2].
Proof.
  unfold second_ok, continuation, between. intros H0 H1 H2.
  set (x := b0 - 0xE0). set (y := b1 - 0x80). set (z := b2 - 0x80).
  assert (b0 = x + 0xE0 /\ x < 16) as [E0 Hx] by (subst x; bools; lia).
  assert (b2 = z + 0x80 /\ z < 64) as [E2 Hz] by (subst z; bools; lia).
  assert (b1 = y + 0x80 /\ y < 64
          /\ (x = 0 -> 32 <= y) /\ (x = 13 -> y < 32)) as (E1 & Hy & Hlo & Hhi).
  { subst x y. repeat case_match; bools; lia. }
  clearbody x y z. clear H0 H1 H2. subst b0 b1 b2.
  destruct (div_mod_digit 4096 x (y * 64 + z)) as [Hq3 _]; [lia..|].
  destruct (div_mod_digit 64 (x * 64 + y) z) as [Hq2 Hr2]; [lia..|].
  destruct (div_mod_digit 64 x y) as [_ Hr1]; [lia..|].
  replace (x * 4096 + y * 64 + z) with (x * 4096 + (y * 64 + z)) in * by lia.
  replace (x * 4096 + (y * 64 + z)) with ((x * 64 + y) * 64 + z) in Hq2, Hr2
    by lia.
  unfold utf8_encode_cp, between.
  destruct (_ <? 0x80) eqn:T1; bools; [lia|].
  destruct (_ <? 0x800) eqn:T2; bools; [lia|].
  destruct (_ <? 0x10000) eqn:T3; bools; [|lia].
  destruct (_ && _) eqn:T4; bools; [lia| |].
  all: rewrite Hq3;
    replace (x * 4096 + (y * 64 + z)) with ((x * 64 + y) * 64 + z) by lia;
    rewrite Hq2, Hr2, Hr1;
    do 2 f_equal; [lia|f_equal; [lia|f_equal; lia]].
Qed.

Lemma utf8_encode_cp_4 b0 b1 b2 b3 :
  between 0xF0 0xF4 b0 = true -> second_ok b0 b1 = true ->
  continuation b2 = true -> continuation b3 = true ->
  utf8_encode_cp ((b0 - 0xF0) * 262144 + (b1 - 0x80) * 4096
                  + (b2 - 0x80) * 64 + (b3 - 0x80))
  = Ok [b0; b1; b2; b3].
Proof.
  unfold second_ok, continuation, between. intros H0 H1 H2 H3.
  set (x := b0 - 0xF0). set (y := b1 - 0x80). set (z := b2 - 0x80).
  set (w := b3 - 0x80).
  assert (b0 = x + 0xF0 /\ x < 5) as [E0 Hx] by (subst x; bools; lia).
  assert (b2 = z + 0x80 /\ z < 64) as [E2 Hz] by (subst z; bools; lia).
  assert (b3 = w + 0x80 /\ w < 64) as [E3 Hw] by (subst w; bools; lia).
  assert (b1 = y + 0x80 /\ y < 64
          /\ (x = 0 -> 16 <= y) /\ (x = 4 -> y < 16)) as (E1 & Hy & Hlo & Hhi).
  { subst x y. repeat case_match; bools; lia. }
  clearbody x y z w. clear H0 H1 H2 H3. subst b0 b1 b2 b3.
  destruct (div_mod_digit 262144 x (y * 4096 + z * 64 + w)) as [Hq4 _];
    [lia..|].
  destruct (div_mod_digit 4096 (x * 64 + y) (z * 64 + w)) as [Hq3 _];
    [lia..|].
  destruct (div_mod_digit 64 ((x * 64 + y) * 64 + z) w) as [Hq2 Hr2];
    [lia..|].
  destruct (div_mod_digit 64 (x * 64 + y) z) as [_ Hr1]; [lia..|].
  destruct (div_mod_digit 64 x y) as [_ Hr0]; [lia..|].
  set (cp := x * 262144 + y * 4096 + z * 64 + w).
  assert (cp = x * 262144 + (y * 4096 + z * 64 + w)) as C4 by (subst cp; lia).
  assert (cp = (x * 64 + y) * 4096 + (z * 64 + w)) as C3 by (subst cp; lia).
  assert (cp = ((x * 64 + y) * 64 + z) * 64 + w) as C2 by (subst cp; lia).
  rewrite <- C4 in Hq4. rewrite <- C3 in Hq3. rewrite <- C2 in Hq2, Hr2.
  assert (0x10000 <= cp <= 0x10FFFF) as Hcp by (subst cp; lia).
  clearbody cp.
  unfold utf8_encode_cp.
  destruct (_ <? 0x80) eqn:T1; bools; [lia|].
  destruct (_ <? 0x800) eqn:T2; bools; [lia|].
  destruct (_ <? 0x10000) eqn:T3; bools; [lia|].
  destruct (_ <=? 0x10FFFF) eqn:T4; bools; [|lia].
  rewrite Hq4, Hq3, Hq2, Hr2, Hr1, Hr0.
  do 2 f_equal; [lia|f_equal; [lia|f_equal; [lia|f_equal; lia]]].
Qed.

Lemma utf8_round_trip bs s :
  utf8_decode bs = Ok s -> utf8_encode s = Ok bs.
Proof.
  remember (length bs) as n eqn:Hn. revert bs s Hn.
  induction n as [n IH] using lt_wf_ind. intros bs s Hn.
  assert (forall r c cs,
            (length r < n)%nat ->
            (utf8_decode r ≫= fun t => Ok (c :: t)) = Ok s ->
            utf8_encode_cp c = Ok cs ->
            utf8_encode s = Ok (cs ++ r)) as Hrec.
  { intros r c cs Hr Hdec Hc.
    destruct (utf8_decode r) as [t| |] eqn:Et; simpl in Hdec; try done.
    injection Hdec as <-. simpl.
    rewrite Hc. simpl. by rewrite (IH _ Hr r t eq_refl Et). }
  destruct bs as [|b0 r0]; simpl; [by intros [= <-]|]. simpl in Hn.
  destruct (b0 <? 0x80) eqn:T1.
  { intros Hdec. apply (Hrec r0 b0 [b0]); [lia|done|].
    by apply utf8_encode_cp_1. }
  destruct (between 0xC2 0xDF b0) eqn:T2.
  { destruct r0 as [|b1 r1]; [done|]. simpl in Hn.
    destruct (continuation b1) eqn:C1; [|done].
    intros Hdec. apply (Hrec r1 _ [b0; b1] ltac:(lia) Hdec).
    by apply utf8_encode_cp_2. }
  destruct (between 0xE0 0xEF b0) eqn:T3.
  { destruct r0 as [|b1 [|b2 r2]]; [done..|]. simpl in Hn.
    destruct (second_ok b0 b1 && continuation b2) eqn:C; [|done].
    apply andb_prop in C as [C1 C2].
    intros Hdec. apply (Hrec r2 _ [b0; b1; b2] ltac:(lia) Hdec).
    by apply utf8_encode_cp_3. }
  destruct (between 0xF0 0xF4 b0) eqn:T4; [|done].
  destruct r0 as [|b1 [|b2 [|b3 r3]]]; [done..|]. simpl in Hn.
  destruct (second_ok b0 b1 && continuation b2 && continuation b3) eqn:C;
    [|done].
  apply andb_prop in C as [C C3]. apply andb_prop in C as [C1 C2].
  intros Hdec. apply (Hrec r3 _ [b0; b1; b2; b3] ltac:(lia) Hdec).
  by apply utf8_encode_cp_4.
Qed.

Lemma encode_decoded b s : decode b = Ok s -> encode s = Ok b.
Proof.
  unfold decode, encode. intros Hd%utf8_round_trip. rewrite Hd. simpl.
  f_equal. rewrite <- list_fmap_compose.
  rewrite <- (list_fmap_id b) at 2. apply list_fmap_ext.
  intros i a _. apply ascii_N_embedding.
Qed.

(** Text that [decode] produced encodes again to the bytes it came from:
    what the handler forwards with [request.encode()] on line 213 is what
    it received. *)
Theorem decode_encode b s : decode b = Ok s -> encode s = Ok b.
Proof. apply encode_decoded. Qed.

(** ** The plain fetch relays both ways as it is *)

(** On a plain fetch the target server is sent exactly the bytes the
    client sent, and the client is sent exactly the bytes the target
    server answered before it closed, whatever becomes of the cache entry
    afterwards. *)
Theorem fetch_relays_verbatim blocked_urls env cache request target_url
    body rest :
  decode (client_data env) = Ok request ->
  get_url request = Ok target_url ->
  target_url ∉ blocked_urls ->
  cache !! target_url = None ->
  contains (U "CONNECT") request = false ->
  fetch_data env = body ++ [] :: rest ->
  Forall (fun chunk : bytes => chunk <> []) body ->
  exists host tail,
    get_host request = Ok host
    /\ events (handle_request blocked_urls env cache)
       = [ERecv Client (client_data env); ELog (LogRequest request);
          EConnect host HTTP_PORT; ESendAll Origin (client_data env)]
         ++ (ERecv Origin <$> body)
         ++ [ERecv Origin []; EClose Origin; ESendAll Client (concat body)]
         ++ tail
    /\ (tail = [] \/ tail = [ELog LogClosed; EClose Client]).
Proof.
  intros Hd Hu Hb Hc Hcon Hf Hbody.
  destruct (get_host_total request) as [host Hh].
  pose proof (encode_decoded _ _ Hd) as Hraw.
  pose proof (fetch_path _ _ _ _ _ _ _ _ _ Hd Hu Hh Hb Hc Hcon Hraw Hf Hbody)
    as Hrun.
  cbn zeta in Hrun. rewrite Hrun. exists host.
  destruct (get_last_modified (concat body) (gmtime env)).
  - exists [ELog LogClosed; EClose Client]. split; [done|]. split; [|by right].
    simpl. rewrite <- ?app_assoc. done.
  - exists []. split; [done|]. split; [|by left].
    simpl. rewrite <- ?app_assoc. done.
  - exists []. split; [done|]. split; [|by left].
    simpl. rewrite <- ?app_assoc. done.
Qed.

(** ** What the handler does to the cache *)



Lemma keeps_bind {A B} (m : M A) (k : A -> M B) :
  keeps m -> (forall a, keeps (k a)) -> keeps (m ≫= k).
Proof.
  intros Hm Hk c. unfold mbind, M_bind. specialize (Hm c).
  destruct (m c) as [ev [a| |] c1]; simpl in *; subst; try done.
  apply Hk.
Qed.

Lemma keeps_ret {A} (a : A) : keeps (mret a).
Proof. done. Qed.

Lemma keeps_emit e : keeps (emit e).
Proof. done. Qed.

Lemma keeps_lift {A} (o : outcome A) : keeps (lift o).
Proof. done. Qed.

Lemma keeps_cache_has key : keeps (cache_has key).
Proof. done. Qed.

Lemma keeps_cache_get key : keeps (cache_get key).
Proof. done. Qed.

Lemma keeps_recv s answer : keeps (recv s answer).
Proof. done. Qed.

Lemma keeps_recv_all_from chunks data : keeps (recv_all_from chunks data).
Proof.
  revert data. induction chunks as [|chunk chunks IH]; intros data; [done|].
  simpl. apply keeps_bind; [apply keeps_recv|].
  intros [|b a]; [done|apply IH].
Qed.

Lemma keeps_forward_to_server env request conditional :
  keeps (forward_to_server env request conditional).
Proof.
  unfold forward_to_server.
  apply keeps_bind; [apply keeps_lift|intros host].
  apply keeps_bind; [apply keeps_emit|intros _].
  apply keeps_bind; [apply keeps_lift|intros data].
  apply keeps_bind; [apply keeps_emit|intros _].
  apply keeps_bind.
  - destruct conditional; [apply keeps_recv|apply keeps_recv_all_from].
  - intros response. apply keeps_bind; [apply keeps_emit|done].
Qed.

Lemma keeps_relay_https rounds : keeps (relay_https rounds).
Proof. intros c. by destruct (relay_https_run rounds c) as (_ & _ & Hs). Qed.

Lemma keeps_handle_https env request : keeps (handle_https env request).
Proof.
  unfold handle_https.
  apply keeps_bind; [apply keeps_lift|intros host].
  apply keeps_bind; [apply keeps_emit|intros _].
  apply keeps_bind; [apply keeps_emit|intros _].
  apply keeps_relay_https.
Qed.

Lemma sets_only_keeps {A} key (m : M A) : keeps m -> sets_only key m.
Proof. intros Hm c. left. apply Hm. Qed.

(** Before: code that keeps the cache.  After: code that may set [key]. *)
Lemma sets_only_bind {A B} key (m : M A) (k : A -> M B) :
  keeps m -> (forall a, sets_only key (k a)) -> sets_only key (m ≫= k).
Proof.
  intros Hm Hk c. unfold mbind, M_bind. specialize (Hm c).
  destruct (m c) as [ev [a| |] c1]; simpl in *; subst; try by left.
  destruct (Hk a c) as [Hs|(e & b & Hs & Hb & v & Hv)]; [by left|].
  right. by exists e, b; eauto.
Qed.

(** Before: code that may set [key].  After: code that keeps the cache
    and always ends normally. *)
Lemma sets_only_then {A B} key (m : M A) (k : A -> M B) :
  sets_only key m ->
  (forall a c, store (k a c) = c /\ exists b, value (k a c) = Ok b) ->
  sets_only key (m ≫= k).
Proof.
  intros Hm Hk c. unfold mbind, M_bind.
  destruct (Hm c) as [Hs|(e & b & Hs & Hb & a & Hv)].
  - destruct (m c) as [ev [a| |] c1]; simpl in *; subst; try by left.
    left. apply Hk.
  - destruct (m c) as [ev v c1]; simpl in *; subst.
    destruct (Hk a (<[key := e]> c)) as [Hs [a' Ha']].
    right. exists e, b. simpl. rewrite Hs, Ha'. eauto.
Qed.

(** [get_last_modified] never answers a [str]. *)
Lemma get_last_modified_bytes response now obj :
  get_last_modified response now = Ok obj -> exists b, obj = PyBytes b.
Proof.
  unfold get_last_modified.
  induction (split CRLF response) as [|line lines IH]; simpl; [done|].
  destruct (is_last_modified_line line); [|done].
  destruct (index (split1 (B ":") line) 1) as [value| |]; simpl; try done.
  intros [= <-]. by eexists.
Qed.

(** The end of both fetch branches: lines 127-130 and 144-147. *)
Lemma sets_only_store key response now latency :
  sets_only key
    (last_modified ← lift (get_last_modified response now);
     cache_set key (Entry response last_modified latency)).
Proof.
  intros c. unfold mbind, M_bind, lift, cache_set. simpl.
  destruct (get_last_modified response now) as [obj| |] eqn:E; simpl;
    try by left.
  apply get_last_modified_bytes in E as [b ->].
  right. by exists (Entry response (PyBytes b) latency), b; eauto.
Qed.

Lemma store_after {A} ev (r : result A) : store (after ev r) = store r.
Proof. done. Qed.

Lemma value_after {A} ev (r : result A) : value (after ev r) = value r.
Proof. done. Qed.

Ltac keeps_step :=
  first
    [ apply keeps_bind; [|intros ?]
    | apply keeps_lift | apply keeps_emit | apply keeps_ret
    | apply keeps_recv | apply keeps_cache_has | apply keeps_cache_get
    | apply keeps_forward_to_server | apply keeps_handle_https ].

(** One run of [handle_request] leaves the cache as it was, or it ends
    normally having set the entry of the request's target, which is not
    blocked, to an entry whose [lastModified] is a [bytes].  It removes no
    entry and touches no entry of another target. *)
Lemma handle_request_store blocked_urls env cache :
  let r := handle_request blocked_urls env cache in
  store r = cache
  \/ exists request target_url e b,
       decode (client_data env) = Ok request
       /\ get_url request = Ok target_url
       /\ (target_url ∉ blocked_urls)
       /\ store r = <[target_url := e]> cache
       /\ lastModified e = PyBytes b
       /\ value r = Ok tt.
Proof.
  cbn zeta. unfold handle_request. cbn zeta. step.
  destruct (decode (client_data env)) as [request| |] eqn:Hd;
    [|left; by erewrite bind_raise by reflexivity
     |left; by erewrite bind_block by reflexivity].
  do 2 step.
  destruct (decide (request = [])) as [Hempty|Hne];
    [rewrite bool_decide_eq_true_2 by done; by left
    |rewrite bool_decide_eq_false_2 by done].
  destruct (get_url request) as [target_url| |] eqn:Hu;
    [|left; by erewrite bind_raise by reflexivity
     |left; by erewrite bind_block by reflexivity].
  step. destruct (get_host_total request) as [target_host Hh].
  rewrite Hh. step. rewrite !store_after, !value_after.
  lazymatch goal with
  | |- context [store ((?m ≫= ?k) ?c)] =>
      change c with cache;
      assert (sets_only target_url (m ≫= k)
              /\ (target_url ∈ blocked_urls -> keeps (m ≫= k))) as [Hsets Hbl]
  end.
  { split.
    - apply sets_only_then; [|intros [] c; split; [done|by exists tt]].
      destruct (bool_decide (target_url ∈ blocked_urls)).
      { apply sets_only_keeps. repeat keeps_step. by destruct (contains _ _). }
      apply sets_only_bind; [apply keeps_cache_has|]. intros [|].
      + apply sets_only_bind; [apply keeps_cache_get|intros e].
        apply sets_only_bind; [apply keeps_lift|intros last_modified].
        apply sets_only_bind; [apply keeps_forward_to_server|intros answer].
        apply sets_only_bind; [apply keeps_lift|intros code].
        destruct (bool_decide (code = B "304")).
        { apply sets_only_keeps. repeat keeps_step. }
        apply sets_only_bind; [apply keeps_forward_to_server|intros response].
        apply sets_only_bind; [apply keeps_lift|intros encoded].
        apply sets_only_bind; [apply keeps_emit|intros _].
        apply sets_only_store.
      + destruct (contains (U "CONNECT") request).
        { apply sets_only_keeps, keeps_handle_https. }
        apply sets_only_bind; [apply keeps_forward_to_server|intros response].
        apply sets_only_bind; [apply keeps_emit|intros _].
        apply sets_only_store.
    - intros Hb. rewrite bool_decide_eq_true_2 by done.
      repeat keeps_step. by destruct (contains _ _). }
  destruct (Hsets cache) as [Hs|(e & b & Hs & Hb & [] & Hv)]; [by left|].
  destruct (decide (target_url ∈ blocked_urls)) as [Hin|Hnot].
  { left. by apply Hbl. }
  right. by exists request, target_url, e, b.
Qed.

(** What one run of [handle_request] does to the cache.  It leaves it as
    it was, or it ends normally having set the entry of the request's
    target, which is not blocked, to an entry whose [lastModified] is a
    [bytes].  So the cache never loses an entry, and only the entry of the
    request's target can differ afterwards. *)
Theorem handle_request_cache_frame blocked_urls env cache :
  let r := handle_request blocked_urls env cache in
  (store r = cache
   \/ exists request target_url e b,
        decode (client_data env) = Ok request
        /\ get_url request = Ok target_url
        /\ (target_url ∉ blocked_urls)
        /\ store r = <[target_url := e]> cache
        /\ lastModified e = PyBytes b
        /\ value r = Ok tt)
  /\ (forall key, is_Some (cache !! key) -> is_Some (store r !! key))
  /\ (forall key,
        store r !! key <> cache !! key ->
        exists request,
          decode (client_data env) = Ok request /\ get_url request = Ok key).
Proof.
  cbn zeta. split; [apply handle_request_store|].
  destruct (handle_request_store blocked_urls env cache)
    as [Hs|(request & target_url & e & b & Hd & Hu & _ & Hs & _)];
    cbn zeta in Hs; rewrite Hs.
  - split; [done|]. by intros key [].
  - split; intros key.
    + destruct (decide (target_url = key)) as [->|Hne].
      * rewrite lookup_insert_eq. eauto.
      * by rewrite lookup_insert_ne.
    + destruct (decide (target_url = key)) as [->|Hne]; [by eauto|].
      rewrite lookup_insert_ne by done. by intros [].
Qed.

(** ** These properties at sample inputs *)


Lemma decode_sample_not_utf8 text : decode sample_not_utf8 <> Ok text.
Proof. discriminate. Qed.

Lemma recv_all_closed_witness :
  recv_all [B "HTTP/1.1 200 OK"; B "BODY"; B ""; B "late"] ∅
  = Result [ERecv Origin (B "HTTP/1.1 200 OK"); ERecv Origin (B "BODY");
            ERecv Origin (B "")]
           (Ok (B "HTTP/1.1 200 OKBODY")) ∅.
Proof.
  apply (recv_all_closed [B "HTTP/1.1 200 OK"; B "BODY"] [B "late"] ∅).
  repeat (constructor; [discriminate|]). constructor.
Defined.

Lemma recv_all_open_witness :
  recv_all [B "HTTP/1.1 200 OK"; B "BODY"] ∅
  = Result [ERecv Origin (B "HTTP/1.1 200 OK"); ERecv Origin (B "BODY")]
           Block ∅.
Proof.
  apply (recv_all_open [B "HTTP/1.1 200 OK"; B "BODY"] ∅).
  repeat (constructor; [discriminate|]). constructor.
Defined.

Lemma undecodable_request_aborts_witness :
  handle_request ∅ (sample_env sample_not_utf8 [] [] []) ∅
  = Result [ERecv Client sample_not_utf8] (Raise UnicodeDecodeError) ∅.
Proof.
  apply (undecodable_request_aborts ∅ (sample_env sample_not_utf8 [] [] []) ∅).
  apply decode_sample_not_utf8.
Defined.

Lemma revalidation_bad_status_witness :
  let env := sample_env sample_get (B "") [] [] in
  let cache : gmap str entry := {[sample_target := sample_entry]} in
  status_line_tokens (probe_data env) = []
  /\ exists probe_host probe,
       handle_request ∅ env cache
       = Result [ERecv Client sample_get; ELog (LogRequest sample_get_text);
                 EConnect probe_host HTTP_PORT; ESendAll Origin probe;
                 ERecv Origin (B ""); EClose Origin]
                (Raise IndexError) cache.
Proof.
  split; [reflexivity|].
  destruct (revalidation_bad_status ∅ (sample_env sample_get (B "") [] [])
              {[sample_target := sample_entry]}
              sample_get_text sample_target (U "example.com") sample_entry
              (U "Mon, 01 Jan 2024 00:00:00 GMT")
              (B "GET http://example.com/ HTTP/1.1" ++ CRLF
               ++ B "Host: example.com" ++ CRLF
               ++ B "If-Modified-Since: Mon, 01 Jan 2024 00:00:00 GMT"
               ++ CRLF ++ CRLF))
    as [probe_host Hrun];
    [reflexivity|reflexivity|reflexivity|apply not_elem_of_empty
    |apply lookup_singleton_eq|reflexivity|reflexivity
    |vm_compute; lia|].
  eexists _, _. exact Hrun.
Defined.

Lemma undecodable_last_modified_aborts_witness :
  let poisoned := Entry sample_200 (PyBytes sample_not_utf8) 10 in
  let cache : gmap str entry := {[sample_target := poisoned]} in
  handle_request ∅ (sample_env sample_get sample_304 [] []) cache
  = Result [ERecv Client sample_get; ELog (LogRequest sample_get_text)]
           (Raise UnicodeDecodeError) cache.
Proof.
  apply (undecodable_last_modified_aborts ∅
           (sample_env sample_get sample_304 [] [])
           {[sample_target := Entry sample_200 (PyBytes sample_not_utf8) 10]}
           sample_get_text sample_target
           (Entry sample_200 (PyBytes sample_not_utf8) 10) sample_not_utf8).
  - reflexivity.
  - reflexivity.
  - apply not_elem_of_empty.
  - apply lookup_singleton_eq.
  - reflexivity.
  - apply decode_sample_not_utf8.
Defined.

Lemma get_url_target_witness :
  get_url sample_get_text = Ok sample_target
  /\ sample_target <> []
  /\ Forall (fun c => isspace_cp c = false) sample_target.
Proof.
  split; [reflexivity|].
  destruct (get_url_target sample_get_text sample_target eq_refl)
    as (Hne & Hsp & _).
  split; [exact Hne|exact Hsp].
Defined.

Lemma get_host_no_colon_witness :
  get_host (U "GET / HTTP/1.1" ++ uCRLF ++ U "Host: [::1]:8080" ++ uCRLF
            ++ uCRLF)
  = Ok (U "[")
  /\ 0x3A ∉ U "[".
Proof.
  split; [reflexivity|].
  apply (get_host_no_colon
           (U "GET / HTTP/1.1" ++ uCRLF ++ U "Host: [::1]:8080" ++ uCRLF
            ++ uCRLF)).
  reflexivity.
Defined.

Lemma decode_encode_witness :
  let euro := [ascii_of_N 0xE2; ascii_of_N 0x82; ascii_of_N 0xAC] in
  decode (B "GET /" ++ euro) = Ok (U "GET /" ++ [0x20AC])
  /\ encode (U "GET /" ++ [0x20AC]) = Ok (B "GET /" ++ euro).
Proof.
  split; [reflexivity|].
  apply (decode_encode
           (B "GET /" ++ [ascii_of_N 0xE2; ascii_of_N 0x82; ascii_of_N 0xAC])).
  reflexivity.
Defined.

Lemma fetch_relays_verbatim_witness :
  let env := sample_env sample_get [] [sample_200_undated; []] [] in
  exists host tail,
    events (handle_request ∅ env ∅)
    = [ERecv Client sample_get; ELog (LogRequest sample_get_text);
       EConnect host HTTP_PORT; ESendAll Origin sample_get;
       ERecv Origin sample_200_undated; ERecv Origin [];
       EClose Origin; ESendAll Client sample_200_undated] ++ tail.
Proof.
  destruct (fetch_relays_verbatim ∅
              (sample_env sample_get [] [sample_200_undated; []] []) ∅
              sample_get_text sample_target [sample_200_undated] [])
    as (host & tail & _ & He & _).
  - reflexivity.
  - reflexivity.
  - apply not_elem_of_empty.
  - apply lookup_empty.
  - reflexivity.
  - reflexivity.
  - constructor; [discriminate|constructor].
  - exists host, tail. exact He.
Defined.

(** ** Entries of the cache are final *)

Lemma grows_keeps {A} (m : M A) : keeps m -> grows m.
Proof. intros Hm c. by rewrite Hm. Qed.

Lemma grows_bind {A B} (m : M A) (k : A -> M B) :
  grows m -> (forall a, grows (k a)) -> grows (m ≫= k).
Proof.
  intros Hm Hk c. unfold mbind, M_bind. specialize (Hm c).
  destruct (m c) as [ev [a| |] c1]; simpl in *; try done.
  etrans; [exact Hm|apply Hk].
Qed.

(** [if key in self.cache: ... else: ...]: the second branch runs with a
    cache that has no entry for [key]. *)
Lemma grows_cache_has {B} key (k : bool -> M B) :
  grows (k true) ->
  (forall c, c !! key = None -> c ⊆ store (k false c)) ->
  grows (cache_has key ≫= k).
Proof.
  intros Ht Hf c. unfold mbind, M_bind, cache_has. simpl.
  destruct (c !! key) as [e|] eqn:E.
  - rewrite bool_decide_eq_true_2 by eauto. apply Ht.
  - rewrite bool_decide_eq_false_2 by (by intros [? ?]). by apply Hf.
Qed.

(** Lines 144-147 with no entry for [key]. *)
Lemma store_new key response now latency c :
  c !! key = None ->
  c ⊆ store ((last_modified ← lift (get_last_modified response now);
              cache_set key (Entry response last_modified latency)) c).
Proof.
  intros Hc. unfold mbind, M_bind, lift, cache_set. simpl.
  destruct (get_last_modified response now) as [obj| |]; simpl; try done.
  by apply insert_subseteq.
Qed.

(** Line 122: [response.encode()] on a [bytes] ends the branch. *)
Lemma keeps_encode_bytes {B} response (k : bytes -> M B) :
  keeps (lift (encode_method (PyBytes response)) ≫= k).
Proof. done. Qed.

Lemma handle_request_grows blocked_urls env :
  grows (handle_request blocked_urls env).
Proof.
  unfold handle_request. cbn zeta.
  apply grows_bind; [apply grows_keeps, keeps_recv|intros data].
  apply grows_bind; [apply grows_keeps, keeps_lift|intros request].
  apply grows_bind; [apply grows_keeps, keeps_emit|intros _].
  destruct (bool_decide (request = [])); [apply grows_keeps, keeps_emit|].
  apply grows_bind; [apply grows_keeps, keeps_lift|intros target_url].
  apply grows_bind; [apply grows_keeps, keeps_lift|intros target_host].
  apply grows_bind;
    [|intros _; apply grows_keeps; repeat keeps_step].
  destruct (bool_decide (target_url ∈ blocked_urls)).
  { apply grows_keeps. repeat keeps_step. by destruct (contains _ _). }
  apply grows_cache_has.
  - apply grows_keeps.
    apply keeps_bind; [apply keeps_cache_get|intros e].
    apply keeps_bind; [apply keeps_lift|intros last_modified].
    apply keeps_bind; [apply keeps_forward_to_server|intros answer].
    apply keeps_bind; [apply keeps_lift|intros code].
    destruct (bool_decide (code = B "304")); [repeat keeps_step|].
    apply keeps_bind; [apply keeps_forward_to_server|intros response].
    apply keeps_encode_bytes.
  - intros c Hc. destruct (contains (U "CONNECT") request).
    { by rewrite keeps_handle_https. }
    pose proof (keeps_forward_to_server env request false c) as Hf.
    destruct (forward_to_server env request false c) as [ev [response| |] c1]
      eqn:E; simpl in Hf; subst c1.
    + erewrite bind_ok by exact E. rewrite store_after. cbn beta.
      rewrite ?bind_assoc. erewrite bind_ok by reflexivity.
      rewrite store_after. by apply store_new.
    + by erewrite bind_raise by exact E.
    + by erewrite bind_block by exact E.
Qed.

(** One run of [handle_request], with the cache as that run finds it and
    leaves it: no entry is removed and no entry is replaced.  The run
    writes the cache only for a target that had no entry when the run
    tested it on line 100; the store of the cached branch, on line 130, is
    never reached, since [response.encode()] on line 122 raises first.  So
    a handler that finds its target cached never refreshes the entry.
    Nothing is said here of handlers that overlap: two of them can both
    find the target absent and both store on line 147. *)
Theorem handle_request_keeps_entries blocked_urls env cache :
  let r := handle_request blocked_urls env cache in
  (forall key e, cache !! key = Some e -> store r !! key = Some e)
  /\ (store r = cache
      \/ exists request target_url e,
           decode (client_data env) = Ok request
           /\ get_url request = Ok target_url
           /\ (target_url ∉ blocked_urls)
           /\ cache !! target_url = None
           /\ store r = <[target_url := e]> cache
           /\ value r = Ok tt).
Proof.
  cbn zeta. pose proof (handle_request_grows blocked_urls env cache) as Hg.
  split.
  - intros key e He. eapply lookup_weaken; [exact He|exact Hg].
  - destruct (handle_request_store blocked_urls env cache)
      as [Hs|(request & target_url & e & b & Hd & Hu & Hb & Hs & _ & Hv)];
      [by left|].
    cbn zeta in Hs.
    destruct (cache !! target_url) as [old|] eqn:Ec.
    + left. rewrite Hs.
      pose proof (lookup_weaken _ _ _ _ Ec Hg) as Hl.
      rewrite Hs, lookup_insert_eq in Hl. injection Hl as ->.
      by apply insert_id.
    + right. by exists request, target_url, e.
Qed.

(** ** When the client socket is closed *)

Lemma quiet_bind {A B} (m : M A) (k : A -> M B) :
  quiet m -> (forall a, quiet (k a)) -> quiet (m ≫= k).
Proof.
  intros Hm Hk c. unfold mbind, M_bind. specialize (Hm c).
  destruct (m c) as [ev [a| |] c1]; simpl in *; try done.
  rewrite elem_of_app. intros [?|?]; [done|]. by eapply Hk.
Qed.

Lemma quiet_ret {A} (a : A) : quiet (mret a).
Proof. intros c. apply not_elem_of_nil. Qed.

Lemma quiet_lift {A} (o : outcome A) : quiet (lift o).
Proof. intros c. apply not_elem_of_nil. Qed.

Lemma quiet_emit e : e <> EClose Client -> quiet (emit e).
Proof. intros He c. simpl. rewrite list_elem_of_singleton. congruence. Qed.

Lemma quiet_cache_has key : quiet (cache_has key).
Proof. intros c. apply not_elem_of_nil. Qed.

Lemma quiet_cache_get key : quiet (cache_get key).
Proof. intros c. apply not_elem_of_nil. Qed.

Lemma quiet_cache_set key e : quiet (cache_set key e).
Proof. intros c. apply not_elem_of_nil. Qed.

Lemma quiet_recv s answer : quiet (recv s answer).
Proof.
  apply quiet_bind; [by apply quiet_emit|intros _; apply quiet_ret].
Qed.

Lemma quiet_recv_all_from chunks data : quiet (recv_all_from chunks data).
Proof.
  revert data. induction chunks as [|chunk chunks IH]; intros data;
    [apply quiet_lift|].
  simpl. apply quiet_bind; [apply quiet_recv|].
  intros [|b a]; [apply quiet_ret|apply IH].
Qed.

Ltac quiet_step :=
  first
    [ apply quiet_bind; [|intros ?]
    | apply quiet_lift | apply quiet_ret | apply quiet_recv
    | apply quiet_cache_has | apply quiet_cache_get | apply quiet_cache_set
    | apply quiet_recv_all_from
    | apply quiet_emit; discriminate ].

Lemma quiet_forward_to_server env request conditional :
  quiet (forward_to_server env request conditional).
Proof.
  unfold forward_to_server, connect, sendall, close.
  apply quiet_bind; [apply quiet_lift|intros host].
  apply quiet_bind; [by apply quiet_emit|intros _].
  apply quiet_bind; [apply quiet_lift|intros data].
  apply quiet_bind; [by apply quiet_emit|intros _].
  apply quiet_bind.
  - destruct conditional; [apply quiet_recv|apply quiet_recv_all_from].
  - intros response.
    apply quiet_bind; [by apply quiet_emit|intros _; apply quiet_ret].
Qed.

Lemma open_quiet {A} (m : M A) : quiet m -> open_on_failure m.
Proof. intros Hm c _. apply Hm. Qed.

Lemma open_bind {A B} (m : M A) (k : A -> M B) :
  quiet m -> (forall a, open_on_failure (k a)) -> open_on_failure (m ≫= k).
Proof.
  intros Hm Hk c. unfold mbind, M_bind. specialize (Hm c).
  destruct (m c) as [ev [a| |] c1]; simpl in *; try done.
  intros Hv. rewrite elem_of_app. intros [?|?]; [done|]. by eapply Hk.
Qed.

(** Code that can fail, followed by code that cannot. *)
Lemma open_then {A B} (m : M A) (k : A -> M B) :
  open_on_failure m ->
  (forall a c, exists b, value (k a c) = Ok b) ->
  open_on_failure (m ≫= k).
Proof.
  intros Hm Hk c. unfold mbind, M_bind. specialize (Hm c).
  destruct (m c) as [ev [a| |] c1]; simpl in *.
  - intros Hv. destruct (Hk a c1) as [b Hb]. by destruct (Hv b).
  - intros _. by apply Hm.
  - intros _. by apply Hm.
Qed.

Lemma ends_closed_bind {A B} (m : M A) (k : A -> M B) :
  (forall a, ends_closed (k a)) -> ends_closed (m ≫= k).
Proof.
  intros Hk c b. unfold mbind, M_bind.
  destruct (m c) as [ev [a| |] c1]; simpl; try done.
  intros Hv. destruct (Hk a c1 b Hv) as [before ->].
  exists (ev ++ before). by rewrite app_assoc.
Qed.

Lemma ends_closed_close : ends_closed (close Client).
Proof. intros c a _. by exists []. Qed.

(** The relay closes the sockets only on its way out. *)
Lemma open_relay_https rounds : open_on_failure (relay_https rounds).
Proof.
  intros c Hv.
  destruct (relay_https_run rounds c) as (He & Hval & _). cbn zeta in *.
  destruct (until_close (reads rounds)) as [before [s|]]; simpl in *.
  { by destruct (Hv tt). }
  rewrite app_nil_r in He. intros Hin.
  assert (EClose Client ∈ socket_calls (events (relay_https rounds c))) as H.
  { unfold socket_calls. apply list_elem_of_In, List.filter_In.
    by rewrite <- list_elem_of_In. }
  rewrite He in H. unfold forwarded in H.
  apply list_elem_of_bind in H as ([s data] & H & _).
  rewrite !elem_of_cons in H. destruct H as [H|[H|H]]; try done.
  by apply elem_of_nil in H.
Qed.

Lemma open_handle_https env request : open_on_failure (handle_https env request).
Proof.
  unfold handle_https, connect, send.
  apply open_bind; [apply quiet_lift|intros host].
  apply open_bind; [by apply quiet_emit|intros _].
  apply open_bind; [by apply quiet_emit|intros _].
  apply open_relay_https.
Qed.

Lemma handle_request_open blocked_urls env :
  open_on_failure (handle_request blocked_urls env).
Proof.
  unfold handle_request, _update_cb, sendall, send. cbn zeta.
  apply open_bind; [apply quiet_recv|intros data].
  apply open_bind; [apply quiet_lift|intros request].
  apply open_bind; [by apply quiet_emit|intros _].
  destruct (bool_decide (request = [])).
  { intros c Hv. by destruct (Hv tt). }
  apply open_bind; [apply quiet_lift|intros target_url].
  apply open_bind; [apply quiet_lift|intros target_host].
  apply open_then; [|intros [] c; by exists tt].
  destruct (bool_decide (target_url ∈ blocked_urls)).
  { apply open_quiet. destruct (contains _ _); repeat quiet_step. }
  apply open_bind; [apply quiet_cache_has|intros [|]].
  - apply open_quiet.
    apply quiet_bind; [apply quiet_cache_get|intros e].
    apply quiet_bind; [apply quiet_lift|intros last_modified].
    apply quiet_bind; [apply quiet_forward_to_server|intros answer].
    apply quiet_bind; [apply quiet_lift|intros code].
    destruct (bool_decide (code = B "304")); [repeat quiet_step|].
    apply quiet_bind; [apply quiet_forward_to_server|intros response].
    repeat quiet_step.
  - destruct (contains (U "CONNECT") request); [apply open_handle_https|].
    apply open_quiet.
    apply quiet_bind; [apply quiet_forward_to_server|intros response].
    repeat quiet_step.
Qed.

Lemma handle_request_ends_closed blocked_urls env :
  ends_closed (handle_request blocked_urls env).
Proof.
  unfold handle_request. cbn zeta.
  do 3 (apply ends_closed_bind; intros ?).
  destruct (bool_decide (_ = [])); [apply ends_closed_close|].
  do 4 (apply ends_closed_bind; intros ?). apply ends_closed_close.
Qed.

(** The client socket is closed by the handler exactly on the runs that
    end normally, and then by its last call.  On every run that ends with
    an exception, or that waits for ever, the handler has not closed the
    client socket: there is no [try]/[finally] around the body. *)
Theorem client_closed_when_normal blocked_urls env cache :
  let r := handle_request blocked_urls env cache in
  (value r = Ok tt -> exists before, events r = before ++ [EClose Client])
  /\ (value r <> Ok tt -> EClose Client ∉ events r).
Proof.
  cbn zeta. split.
  - apply handle_request_ends_closed.
  - intros Hv. apply handle_request_open. by intros [].
Qed.
(** ** More on [split] and [strip] *)

Section SplitFacts.
Context {A : Type} `{EqDecision A}.
Implicit Types s p sep : list A.

Lemma startswith_prefix s k p :
  startswith s p = true -> startswith (s ++ k) p = true.
Proof.
  intros [k' ->]%startswith_inv. rewrite <- app_assoc. apply startswith_app.
Qed.

(** [find_sep] cuts at the first occurrence: there is none before it. *)
Lemma find_sep_before sep s before after :
  sep <> [] -> find_sep sep s = Some (before, after) ->
  contains sep before = false.
Proof.
  intros Hsep. revert before. induction s as [|c s IH]; intros before; simpl.
  - destruct (startswith [] sep); [|done]. intros [= <- <-].
    by destruct sep.
  - destruct (startswith (c :: s) sep) eqn:E.
    + intros [= <- <-]. by destruct sep.
    + destruct (find_sep sep s) as [[b a]|] eqn:Ef; [|done].
      intros [= <- <-].
      change (contains sep (c :: b))
        with (startswith (c :: b) sep || contains sep b).
      rewrite (IH b eq_refl), orb_false_r.
      destruct (startswith (c :: b) sep) eqn:Eb; [|done].
      apply find_sep_Some in Ef. subst s.
      apply (startswith_prefix _ (sep ++ a)) in Eb. simpl in Eb. congruence.
Qed.

Lemma split_fuel_lines n sep s line :
  sep <> [] -> (length s <= n)%nat -> line ∈ split_fuel n sep s ->
  contains sep line = false /\ forall x, x ∈ line -> x ∈ s.
Proof.
  intros Hsep. revert s. induction n as [|n IH]; intros s Hn; simpl.
  - destruct s; [|simpl in Hn; lia]. intros ->%list_elem_of_singleton.
    split; [by destruct sep|done].
  - destruct (find_sep sep s) as [[b a]|] eqn:E.
    + pose proof (find_sep_Some _ _ _ _ E) as ->.
      intros [->|Hin]%elem_of_cons.
      * split; [by eapply find_sep_before|]. intros x Hx. apply elem_of_app. by left.
      * rewrite !length_app in Hn.
        assert (length sep <> 0)%nat by (by destruct sep).
        destruct (IH a ltac:(lia) Hin) as [Hc Hsub].
        split; [done|]. intros x Hx%Hsub. rewrite !elem_of_app. auto.
    + intros ->%list_elem_of_singleton. split; [|done].
      by apply find_sep_None.
Qed.

(** No piece of [s.split(sep)] holds [sep], and every piece is made of
    elements of [s]. *)
Lemma split_lines sep s line :
  sep <> [] -> line ∈ split sep s ->
  contains sep line = false /\ forall x, x ∈ line -> x ∈ s.
Proof. intros Hsep. by apply split_fuel_lines. Qed.

Lemma contains_part sep s a b :
  contains sep (a ++ s ++ b) = false -> contains sep s = false.
Proof.
  intros Hc. destruct (contains sep s) eqn:E; [|done].
  apply contains_infix in E as (a' & b' & ->).
  rewrite <- Hc. symmetry. apply contains_infix.
  exists (a ++ a'), (b' ++ b). by rewrite <- !app_assoc.
Qed.

Lemma contains_skip x y p q :
  x ∉ p -> contains (x :: y) (p ++ q) = contains (x :: y) q.
Proof.
  induction p as [|c p IH]; [done|].
  intros [Hc Hp]%not_elem_of_cons.
  change (contains (x :: y) ((c :: p) ++ q))
    with (startswith (c :: p ++ q) (x :: y) || contains (x :: y) (p ++ q)).
  simpl. rewrite bool_decide_eq_false_2 by done. simpl. by apply IH.
Qed.

Lemma contains_none x y p : x ∉ p -> contains (x :: y) p = false.
Proof.
  intros Hx. by rewrite <- (app_nil_r p), contains_skip.
Qed.

(** Cutting at a separator of two different elements. *)
Lemma find_sep_pair (a b : A) p rest :
  a <> b -> contains [a; b] p = false ->
  find_sep [a; b] (p ++ a :: b :: rest) = Some (p, rest).
Proof.
  intros Hab. induction p as [|c p IH].
  - intros _. simpl.
    by rewrite (bool_decide_eq_true_2 (a = a)),
      (bool_decide_eq_true_2 (b = b)) by done.
  - change (contains [a; b] (c :: p))
      with (startswith (c :: p) [a; b] || contains [a; b] p).
    intros [Hs Hc]%orb_false_elim.
    change (find_sep [a; b] ((c :: p) ++ a :: b :: rest))
      with (if startswith (c :: p ++ a :: b :: rest) [a; b]
            then Some ([], drop 2 (c :: p ++ a :: b :: rest))
            else match find_sep [a; b] (p ++ a :: b :: rest) with
                 | Some (before, after) => Some (c :: before, after)
                 | None => None
                 end).
    rewrite (IH Hc).
    replace (startswith (c :: p ++ a :: b :: rest) [a; b]) with false; [done|].
    symmetry. destruct p as [|d p]; simpl in *.
    + rewrite (bool_decide_eq_false_2 (b = a)) by done.
      by rewrite andb_false_r.
    + by rewrite andb_true_r in *.
Qed.

Variable isspace : A -> bool.

Lemma lstrip_suffix s : exists a, s = a ++ lstrip isspace s.
Proof.
  induction s as [|c s [a IH]]; simpl; [by exists []|].
  destruct (isspace c); [|by exists []].
  exists (c :: a). simpl. by rewrite <- IH.
Qed.

(** [s.strip()] is a contiguous run of [s]. *)
Lemma strip_infix s : exists a b, s = a ++ strip isspace s ++ b.
Proof.
  unfold strip. destruct (lstrip_suffix s) as [a Ha].
  destruct (lstrip_suffix (reverse (lstrip isspace s))) as [b Hb].
  exists a, (reverse b). rewrite <- reverse_app, <- Hb, reverse_involutive.
  done.
Qed.

Lemma lstrip_clean s :
  match s with c :: _ => isspace c = false | [] => True end ->
  lstrip isspace s = s.
Proof. destruct s as [|c s]; simpl; [done|]. by intros ->. Qed.

Lemma lstrip_lstrip s : lstrip isspace (lstrip isspace s) = lstrip isspace s.
Proof.
  induction s as [|c s IH]; simpl; [done|].
  destruct (isspace c) eqn:E; [done|]. simpl. by rewrite E.
Qed.

Lemma lstrip_snoc s x :
  isspace x = false -> lstrip isspace (s ++ [x]) = lstrip isspace s ++ [x].
Proof.
  intros Hx. induction s as [|c s IH]; simpl; [by rewrite Hx|].
  by destruct (isspace c).
Qed.

Lemma lstrip_strip s : lstrip isspace (strip isspace s) = strip isspace s.
Proof.
  unfold strip. destruct (lstrip isspace s) as [|x w] eqn:E; [done|].
  assert (isspace x = false) as Hx.
  { pose proof (lstrip_lstrip s) as Hl. rewrite E in Hl. simpl in Hl.
    destruct (isspace x) eqn:Ex; [|done].
    apply (f_equal length) in Hl. destruct (lstrip_suffix w) as [a Ha].
    apply (f_equal length) in Ha. rewrite length_app in Ha. simpl in Hl. lia. }
  rewrite reverse_cons, lstrip_snoc, reverse_app by done. simpl.
  by rewrite Hx.
Qed.

(** Stripping again changes nothing. *)
Lemma strip_strip s : strip isspace (strip isspace s) = strip isspace s.
Proof.
  unfold strip at 1. rewrite lstrip_strip. unfold strip.
  by rewrite reverse_involutive, lstrip_lstrip.
Qed.

Lemma strip_space_strip c s :
  isspace c = true -> strip isspace (c :: strip isspace s) = strip isspace s.
Proof.
  intros Hc. rewrite <- (strip_strip s) at 2. unfold strip at 1 3.
  simpl. by rewrite Hc.
Qed.
End SplitFacts.
(** ** The shape of the extracted target and host *)

Lemma get_url_clean request target :
  get_url request = Ok target ->
  Forall (fun c => isspace_cp c = false) target
  /\ forall x, x ∈ target -> x ∈ request.
Proof.
  intros Hu. apply get_url_Ok_tokens in Hu as (method & rest & Ht).
  unfold request_line_tokens in Ht.
  destruct (split uCRLF request) as [|line0 more] eqn:Hs; [done|].
  apply split_head in Hs as [k ->].
  assert (target ∈ split_ws isspace_cp line0) as Hin.
  { rewrite Ht. apply elem_of_cons. right. apply elem_of_cons. by left. }
  split; [by apply (split_ws_tokens _ _ _ Hin)|].
  apply split_ws_infix in Hin as (a & b & ->). intros x Hx.
  rewrite !elem_of_app. auto.
Qed.

(** What the loop body of [get_host] returns is stripped, holds no colon
    and stands in the line as it is. *)
Lemma host_of_line_shape line host :
  is_host_line line = true ->
  host_of_line line = Ok host ->
  (0x3A ∉ host)
  /\ (exists v, host = strip isspace_cp v)
  /\ exists a b, line = a ++ host ++ b.
Proof.
  intros (name & value & -> & Hn & _)%is_host_line_colon Hh.
  destruct (strip_infix isspace_cp value) as (a1 & b1 & Hv).
  destruct (decide (0x3A ∈ strip isspace_cp value)) as [Hin|Hnot].
  - apply list_elem_of_split_l in Hin as (h & p & Hs & Hh').
    rewrite (host_of_line_port _ _ _ _ Hn Hs Hh') in Hh. injection Hh as <-.
    split; [by intros ?%strip_subset|]. split; [by eexists|].
    destruct (strip_infix isspace_cp h) as (a2 & b2 & Hh2).
    exists (name ++ 0x3A :: a1 ++ a2), (b2 ++ 0x3A :: p ++ b1).
    rewrite Hv at 1. rewrite Hs. rewrite Hh2 at 1.
    repeat (rewrite <- ?app_assoc; simpl). done.
  - rewrite (host_of_line_plain _ _ Hn Hnot) in Hh. injection Hh as <-.
    split; [done|]. split; [by eexists|].
    exists (name ++ 0x3A :: a1), b1. rewrite Hv at 1.
    repeat (rewrite <- ?app_assoc; simpl). done.
Qed.

(** The host [get_host] answers is stripped, holds no colon and no CR LF,
    and is made of characters of the request or is ["localhost"]. *)
Lemma get_host_shape request host :
  get_host request = Ok host ->
  (0x3A ∉ host)
  /\ strip isspace_cp host = host
  /\ contains uCRLF host = false
  /\ (host = U "localhost" \/ forall x, x ∈ host -> x ∈ request).
Proof.
  intros [->|(line & Hin & Hl & Hh)]%get_host_lines_Ok.
  - split; [|by auto]. intros Hc. vm_compute in Hc.
    apply list_elem_of_In in Hc. simpl in Hc.
    repeat (destruct Hc as [Hc|Hc]; [discriminate Hc|]). done.
  - destruct (host_of_line_shape _ _ Hl Hh) as (Hc & [v ->] & a & b & ->).
    apply split_lines in Hin as [Hno Hsub]; [|done].
    split; [done|]. split; [apply strip_strip|].
    split; [by eapply contains_part|].
    right. intros x Hx. apply Hsub. rewrite !elem_of_app. auto.
Qed.

(** ** Where the conditional GET goes *)

(** The second line of a text decides the host when the first line is
    not a Host line and the second is. *)
Lemma get_host_second line0 line1 rest :
  contains uCRLF line0 = false ->
  contains uCRLF line1 = false ->
  is_host_line line0 = false ->
  is_host_line line1 = true ->
  get_host (line0 ++ uCRLF ++ line1 ++ uCRLF ++ rest) = host_of_line line1.
Proof.
  intros H0 H1 Hl0 Hl1. unfold get_host, split.
  assert (find_sep uCRLF (line0 ++ uCRLF ++ line1 ++ uCRLF ++ rest)
          = Some (line0, line1 ++ uCRLF ++ rest)) as E0
    by (by apply (find_sep_pair 13 10)).
  assert (find_sep uCRLF (line1 ++ uCRLF ++ rest) = Some (line1, rest)) as E1
    by (by apply (find_sep_pair 13 10)).
  destruct (length (line0 ++ uCRLF ++ line1 ++ uCRLF ++ rest))
    as [|[|n]] eqn:El.
  - rewrite !length_app in El. simpl in El. lia.
  - rewrite !length_app in El. simpl in El. lia.
  - cbn [split_fuel]. rewrite E0, E1. cbn [get_host_lines]. by rewrite Hl0, Hl1.
Qed.

Lemma conditional_request_host target_url target_host last_modified :
  Forall (fun c => isspace_cp c = false) target_url ->
  0x3A ∉ target_host ->
  strip isspace_cp target_host = target_host ->
  contains uCRLF target_host = false ->
  get_host (conditional_request_for target_url target_host last_modified)
  = Ok target_host.
Proof.
  intros Ht Hc Hs Hn. unfold conditional_request_for.
  rewrite (app_assoc (U "GET ")), (app_assoc _ (U " HTTP/1.1")).
  rewrite (app_assoc (U "Host: ") target_host).
  assert (forall (x : N) (l : list N), negb (bool_decide (x ∈ l)) = true -> x ∉ l)
    as Hnot by (intros x l H%negb_true_iff; by apply bool_decide_eq_false_1 in H).
  assert (strip isspace_cp (32 :: target_host) = target_host) as Hsp.
  { rewrite <- Hs at 1. rewrite strip_space_strip by done. exact Hs. }
  rewrite get_host_second.
  - change (U "Host: " ++ target_host)
      with ([72; 111; 115; 116] ++ 58 :: 32 :: target_host).
    rewrite host_of_line_plain; [by rewrite Hsp|by apply Hnot|by rewrite Hsp].
  - apply contains_none. rewrite !elem_of_app. rewrite Forall_forall in Ht.
    intros [[H|H]|H]; [revert H; by apply Hnot|by apply Ht in H
                      |revert H; by apply Hnot].
  - unfold uCRLF. rewrite contains_skip; [done|by apply Hnot].
  - reflexivity.
  - reflexivity.
Qed.

(** The conditional GET for a cached target is sent to the host
    [get_host] finds in the client's request: the same host the request
    itself would be forwarded to.  Neither the target nor the stored date
    can bring another Host line in front of it. *)
Theorem probe_goes_to_request_host request target_url target_host
    last_modified :
  get_url request = Ok target_url ->
  get_host request = Ok target_host ->
  get_host (conditional_request_for target_url target_host last_modified)
  = Ok target_host.
Proof.
  intros [Ht _]%get_url_clean (Hc & Hs & Hn & _)%get_host_shape.
  by apply conditional_request_host.
Qed.
(** ** What the conditional GET is on the wire *)

Lemma utf8_encode_app a b ea eb :
  utf8_encode a = Ok ea -> utf8_encode b = Ok eb ->
  utf8_encode (a ++ b) = Ok (ea ++ eb).
Proof.
  revert ea. induction a as [|c a IH]; intros ea; simpl.
  - by intros [= <-].
  - destruct (utf8_encode_cp c) as [cs| |]; simpl; try done.
    destruct (utf8_encode a) as [r| |]; simpl; try done.
    intros [= <-] Hb. rewrite (IH r eq_refl Hb). simpl.
    by rewrite <- app_assoc.
Qed.

Lemma encode_app a b ea eb :
  encode a = Ok ea -> encode b = Ok eb -> encode (a ++ b) = Ok (ea ++ eb).
Proof.
  unfold encode.
  destruct (utf8_encode a) as [ra| |] eqn:Ea; simpl; try done.
  destruct (utf8_encode b) as [rb| |] eqn:Eb; simpl; try done.
  intros [= <-] [= <-]. rewrite (utf8_encode_app _ _ _ _ Ea Eb). simpl.
  by rewrite map_app.
Qed.

(** Text encodes exactly when each of its code points does. *)
Lemma encode_Forall s :
  (exists b, encode s = Ok b)
  <-> Forall (fun c => exists cs, utf8_encode_cp c = Ok cs) s.
Proof.
  unfold encode. induction s as [|c s IH]; simpl.
  - split; intros _; [constructor|by eexists].
  - split.
    + intros [b Hb].
      destruct (utf8_encode_cp c) as [cs| |] eqn:Ec; simpl in Hb; try done.
      destruct (utf8_encode s) as [r| |]; simpl in Hb; try done.
      constructor; [by eexists|]. apply IH. by eexists.
    + intros [[cs Hc] [b Hb]%IH]%Forall_cons. rewrite Hc. simpl.
      destruct (utf8_encode s) as [r| |]; simpl in *; try done.
      by eexists.
Qed.

(** Text cut out of text that encodes does encode. *)
Lemma encode_part s t b :
  encode s = Ok b -> (forall x, x ∈ t -> x ∈ s) -> exists bt, encode t = Ok bt.
Proof.
  intros Hs Hsub. apply encode_Forall.
  assert (exists b, encode s = Ok b) as Hall%encode_Forall by by eexists.
  rewrite Forall_forall in *. auto.
Qed.

Lemma conditional_request_encoded target_url target_host last_modified t h d :
  encode target_url = Ok t -> encode target_host = Ok h ->
  encode last_modified = Ok d ->
  encode (conditional_request_for target_url target_host last_modified)
  = Ok (B "GET " ++ t ++ B " HTTP/1.1" ++ CRLF
        ++ B "Host: " ++ h ++ CRLF
        ++ B "If-Modified-Since: " ++ d ++ CRLF ++ CRLF).
Proof.
  intros Ht Hh Hd. unfold conditional_request_for.
  repeat first [ apply encode_app | done | reflexivity ].
Qed.

(** The conditional GET always encodes, and the bytes sent are the lines
    [GET target HTTP/1.1], [Host: host] and [If-Modified-Since: date]
    where [target] and [host] are the encoded target and host of the
    client's request and [date] is, byte for byte, the [lastModified] of
    the cache entry. *)
Theorem conditional_request_on_wire data request target_url target_host
    date last_modified :
  decode data = Ok request ->
  get_url request = Ok target_url ->
  get_host request = Ok target_host ->
  decode date = Ok last_modified ->
  exists t h,
    encode target_url = Ok t /\ encode target_host = Ok h
    /\ encode (conditional_request_for target_url target_host last_modified)
       = Ok (B "GET " ++ t ++ B " HTTP/1.1" ++ CRLF
             ++ B "Host: " ++ h ++ CRLF
             ++ B "If-Modified-Since: " ++ date ++ CRLF ++ CRLF).
Proof.
  intros Hr%encode_decoded [_ Ht]%get_url_clean
    (_ & _ & _ & Hh)%get_host_shape Hd%encode_decoded.
  destruct (encode_part _ _ _ Hr Ht) as [t Et].
  assert (exists h, encode target_host = Ok h) as [h Eh].
  { destruct Hh as [->|Hh]; [by eexists|by apply (encode_part _ _ _ Hr)]. }
  exists t, h. split; [done|]. split; [done|].
  by apply conditional_request_encoded.
Qed.

Lemma probe_goes_to_request_host_witness :
  get_url sample_get_text = Ok sample_target
  /\ get_host sample_get_text = Ok (U "example.com")
  /\ get_host (conditional_request_for sample_target (U "example.com")
                 (U "Mon, 01 Jan 2024 00:00:00 GMT"))
     = Ok (U "example.com").
Proof.
  split; [reflexivity|]. split; [reflexivity|].
  apply (probe_goes_to_request_host sample_get_text); reflexivity.
Defined.

Lemma conditional_request_on_wire_witness :
  decode sample_get = Ok sample_get_text
  /\ get_url sample_get_text = Ok sample_target
  /\ get_host sample_get_text = Ok (U "example.com")
  /\ decode (B "Mon, 01 Jan 2024 00:00:00 GMT")
     = Ok (U "Mon, 01 Jan 2024 00:00:00 GMT")
  /\ exists t h,
       encode sample_target = Ok t /\ encode (U "example.com") = Ok h
       /\ encode (conditional_request_for sample_target (U "example.com")
                    (U "Mon, 01 Jan 2024 00:00:00 GMT"))
          = Ok (B "GET " ++ t ++ B " HTTP/1.1" ++ CRLF
                ++ B "Host: " ++ h ++ CRLF
                ++ B "If-Modified-Since: "
                ++ B "Mon, 01 Jan 2024 00:00:00 GMT" ++ CRLF ++ CRLF).
Proof.
  do 4 (split; [reflexivity|]).
  apply (conditional_request_on_wire sample_get sample_get_text);
    reflexivity.
Defined.
(** ** A fetch and then a revalidation *)

(** Two connections in a row for the same target, which is neither
    blocked nor cached at first.  The first is answered by a full fetch
    whose response has a Last-Modified header; the second is answered by
    the cache after a conditional GET that the target server answers with
    304.  The conditional GET goes to the host of the second request and
    carries as If-Modified-Since the Last-Modified value of the first
    response, byte for byte; the second client is sent exactly the bytes
    the first client was sent; the log reports the difference of the two
    latencies; and the second handler leaves the cache as the first one
    left it. *)
Theorem fetch_then_revalidate blocked_urls env1 env2 cache request1 request2
    target_url body rest pre name date post last_modified :
  decode (client_data env1) = Ok request1 ->
  decode (client_data env2) = Ok request2 ->
  get_url request1 = Ok target_url ->
  get_url request2 = Ok target_url ->
  target_url ∉ blocked_urls ->
  cache !! target_url = None ->
  contains (U "CONNECT") request1 = false ->
  fetch_data env1 = body ++ [] :: rest ->
  Forall (fun chunk : bytes => chunk <> []) body ->
  split CRLF (concat body) = pre ++ (name ++ ":"%char :: date) :: post ->
  (forall l, l ∈ pre -> is_last_modified_line l = false) ->
  is_last_modified_line (name ++ ":"%char :: date) = true ->
  ":"%char ∉ name ->
  decode (strip isspace_byte date) = Ok last_modified ->
  get_status_code (probe_data env2) = Ok (B "304") ->
  exists r1 r2 host1 host2 t h,
    start blocked_urls [env1; env2] cache = [r1; r2]
    /\ get_host request1 = Ok host1
    /\ get_host request2 = Ok host2
    /\ encode target_url = Ok t
    /\ encode host2 = Ok h
    /\ events r1
       = [ERecv Client (client_data env1); ELog (LogRequest request1);
          EConnect host1 HTTP_PORT; ESendAll Origin (client_data env1)]
         ++ (ERecv Origin <$> body)
         ++ [ERecv Origin []; EClose Origin; ESendAll Client (concat body);
             ELog LogClosed; EClose Client]
    /\ events r2
       = [ERecv Client (client_data env2); ELog (LogRequest request2);
          EConnect host2 HTTP_PORT;
          ESendAll Origin
            (B "GET " ++ t ++ B " HTTP/1.1" ++ CRLF
             ++ B "Host: " ++ h ++ CRLF
             ++ B "If-Modified-Since: " ++ strip isspace_byte date
             ++ CRLF ++ CRLF);
          ERecv Origin (probe_data env2); EClose Origin;
          ESendAll Client (concat body);
          ELog (LogSaved ((end_clock env1 - start_clock env1)
                          - (end_clock env2 - start_clock env2)));
          ELog LogClosed; EClose Client]
    /\ value r1 = Ok tt /\ value r2 = Ok tt
    /\ store r2 = store r1
    /\ store r2
       = <[target_url :=
             Entry (concat body) (PyBytes (strip isspace_byte date))
                   (end_clock env1 - start_clock env1)]> cache.
Proof.
  intros Hd1 Hd2 Hu1 Hu2 Hb Hc Hcon Hf Hbody Hs Hpre Hl Hn Hlm Hcode.
  destruct (get_host_total request1) as [host1 Hh1].
  destruct (get_host_total request2) as [host2 Hh2].
  pose proof (encode_decoded _ _ Hd1) as Hraw.
  pose proof (fetch_path _ _ _ _ _ _ _ _ _ Hd1 Hu1 Hh1 Hb Hc Hcon Hraw Hf Hbody)
    as Hrun1.
  cbn zeta in Hrun1. unfold get_last_modified in Hrun1.
  rewrite Hs, (get_last_modified_lines_first _ _ _ _ _ Hpre Hl Hn) in Hrun1.
  set (fresh := Entry (concat body) (PyBytes (strip isspace_byte date))
                      (end_clock env1 - start_clock env1)) in *.
  pose proof (get_url_clean _ _ Hu2) as [Hclean Hsub].
  pose proof (get_host_shape _ _ Hh2) as (Hcolon & Hstrip & Hnl & Hfrom).
  pose proof (encode_decoded _ _ Hd2) as Hraw2.
  destruct (encode_part _ _ _ Hraw2 Hsub) as [t Et].
  assert (exists h, encode host2 = Ok h) as [h Eh].
  { destruct Hfrom as [->|Hfrom];
      [by eexists|by apply (encode_part _ _ _ Hraw2)]. }
  pose proof (conditional_request_encoded _ _ _ _ _ _ Et Eh
                (encode_decoded _ _ Hlm)) as Hprobe.
  destruct (revalidation_path blocked_urls env2 (<[target_url := fresh]> cache)
              request2 target_url host2 fresh last_modified _ (B "304")
              Hd2 Hu2 Hh2 Hb (lookup_insert_eq _ _ _) Hlm Hprobe Hcode)
    as (probe_host & Hph & Hrun2).
  rewrite (conditional_request_host _ _ _ Hclean Hcolon Hstrip Hnl) in Hph.
  injection Hph as <-. cbn zeta in Hrun2.
  rewrite bool_decide_eq_true_2 in Hrun2 by done.
  eexists _, _, host1, host2, t, h. cbn [start]. rewrite Hrun1.
  cbn [store]. rewrite Hrun2. split; [reflexivity|]. cbn [events value store].
  repeat split; try done. by rewrite <- !app_assoc.
Qed.

Lemma fetch_then_revalidate_witness :
  let env1 := sample_env sample_get [] [sample_200; []] [] in
  let env2 :=
    {| client_data := sample_get; probe_data := sample_304;
       fetch_data := []; tunnel_data := []; start_clock := 200;
       end_clock := 203; gmtime := sample_time |} in
  exists r1 r2,
    start ∅ [env1; env2] ∅ = [r1; r2]
    /\ events r2
       = [ERecv Client sample_get; ELog (LogRequest sample_get_text);
          EConnect (U "example.com") HTTP_PORT;
          ESendAll Origin
            (B "GET http://example.com/ HTTP/1.1" ++ CRLF
             ++ B "Host: example.com" ++ CRLF
             ++ B "If-Modified-Since: Mon, 01 Jan 2024 00:00:00 GMT"
             ++ CRLF ++ CRLF);
          ERecv Origin sample_304; EClose Origin;
          ESendAll Client sample_200; ELog (LogSaved 7);
          ELog LogClosed; EClose Client]
    /\ value r2 = Ok tt
    /\ store r2 = store r1.
Proof.
  intros env1 env2.
  destruct (fetch_then_revalidate ∅ env1 env2 ∅
              sample_get_text sample_get_text sample_target
              [sample_200] [] [B "HTTP/1.1 200 OK"] (B "Last-Modified")
              (B " Mon, 01 Jan 2024 00:00:00 GMT") [B ""; B "BODY"]
              (U "Mon, 01 Jan 2024 00:00:00 GMT"))
    as (r1 & r2 & host1 & host2 & t & h & Hstart & Hh1 & Hh2 & Ht & Hh
        & _ & He2 & _ & Hv2 & Hs2 & _).
  - reflexivity.
  - reflexivity.
  - reflexivity.
  - reflexivity.
  - apply not_elem_of_empty.
  - apply lookup_empty.
  - reflexivity.
  - reflexivity.
  - constructor; [discriminate|constructor].
  - reflexivity.
  - intros l Hin. apply list_elem_of_singleton in Hin as ->. reflexivity.
  - reflexivity.
  - intros Hin. apply list_elem_of_In in Hin. vm_compute in Hin.
    repeat (destruct Hin as [Hin|Hin]; [discriminate Hin|]). exact Hin.
  - reflexivity.
  - reflexivity.
  - exists r1, r2. split; [exact Hstart|].
    injection Hh2 as <-. injection Ht as <-. injection Hh as <-.
    split; [exact He2|]. split; [exact Hv2|exact Hs2].
Defined.
(** ** The management console *)

Lemma shows_block_list_init : shows_block_list console_init.
Proof. split; [constructor|done]. Qed.

Lemma delete_NoDup_elem (l : list str) i u :
  NoDup l -> l !! i = Some u ->
  forall x, x ∈ delete i l <-> x ∈ l /\ x <> u.
Proof.
  intros Hnd Hi x. revert i Hi.
  induction Hnd as [|y l Hy Hnd IH]; intros [|i] Hi; simpl in *; try done.
  - injection Hi as ->. rewrite elem_of_cons. split.
    + intros Hx. split; [by right|]. by intros ->.
    + by intros [[->|Hx] Hne].
  - rewrite !elem_of_cons, (IH i Hi). split.
    + intros [->|[Hx Hne]]; [|by auto]. split; [by left|].
      intros ->. apply Hy. by eapply list_elem_of_lookup_2.
    + intros [[->|Hx] Hne]; by auto.
Qed.

Lemma delete_NoDup (l : list str) i : NoDup l -> NoDup (delete i l).
Proof.
  intros Hnd. eapply sublist_NoDup; [done|apply sublist_delete].
Qed.

(** One callback keeps the list box and the block list in step, and the
    only way it can raise is [add_blocked_url] on a non-blank entry when
    there is no server yet. *)
Lemma callback_shows a w :
  shows_block_list w ->
  let c := callback a w in
  shows_block_list (console c)
  /\ (raised c = Ok tt
      \/ raised c = Raise AttributeError
         /\ proxy_server w = None /\ console c = w /\ widgets c = []
         /\ exists text, a = ClickAdd text /\ strip isspace_cp text <> []).
Proof.
  intros [Hnd Hshow]. destruct a as [|text|active]; simpl.
  - unfold start_server. destruct (proxy_server w) as [b|] eqn:E; simpl.
    + split; [|by left]. split; [done|]. by rewrite E.
    + split; [|by left]. split; [done|]. simpl. rewrite Hshow.
      intros url. split; [by intros ?%elem_of_nil|by intros ?%elem_of_empty].
  - unfold add_blocked_url.
    destruct (strip isspace_cp text) as [|c url] eqn:Eu; simpl.
    { split; [done|by left]. }
    destruct (proxy_server w) as [b|] eqn:E; simpl.
    + destruct (decide (c :: url ∈ b)) as [Hin|Hnot].
      * rewrite bool_decide_eq_false_2 by auto. simpl.
        split; [|by left]. split; [done|]. by rewrite E.
      * rewrite bool_decide_eq_true_2 by done. simpl.
        split; [|by left]. split; simpl.
        -- apply NoDup_app. split; [done|]. split; [|apply NoDup_singleton].
           intros x Hx ->%list_elem_of_singleton. by apply Hnot, Hshow.
        -- intros x. rewrite elem_of_app, list_elem_of_singleton, Hshow.
           rewrite elem_of_union, elem_of_singleton. tauto.
    + split; [by split; [|rewrite E]|]. right.
      repeat split; try done. exists text. by rewrite Eu.
  - unfold remove_blocked_url.
    destruct (blocked_listbox w !! active) as [[|c url]|] eqn:Ei; simpl;
      try (split; [done|by left]).
    destruct (proxy_server w) as [b|] eqn:E; simpl.
    + rewrite bool_decide_eq_true_2
        by (apply Hshow; by eapply list_elem_of_lookup_2).
      simpl. split; [|by left]. split; simpl; [by apply delete_NoDup|].
      intros x. rewrite (delete_NoDup_elem _ _ _ Hnd Ei), Hshow.
      rewrite elem_of_difference, elem_of_singleton. tauto.
    + rewrite Hshow in Ei. done.
Qed.

(** Whatever the user clicks, in whatever order, from the moment the
    console opens: after every callback the list box shows exactly the
    block list of the server, each URL once.  [remove_blocked_url] never
    raises; the only callback that raises is [add_blocked_url] with a
    non-blank entry before the server was started: it ends with
    [AttributeError] on [None.blocked_urls], adds nothing, and does not
    clear the entry. *)
Theorem console_shows_block_list actions :
  Forall2 (fun a c =>
             shows_block_list (console c)
             /\ (raised c = Ok tt
                 \/ raised c = Raise AttributeError
                    /\ proxy_server (console c) = None /\ widgets c = []
                    /\ exists text,
                         a = ClickAdd text /\ strip isspace_cp text <> []))
          actions (mainloop actions console_init).
Proof.
  pose proof shows_block_list_init as Hinit. revert Hinit.
  generalize console_init as w.
  induction actions as [|a actions IH]; intros w Hw; simpl; constructor.
  - destruct (callback_shows a w Hw) as [Hs Hr]. split; [done|].
    destruct Hr as [Hr|(Hr & Hnone & Hc & Hg & Ht)]; [by left|].
    right. by rewrite Hc.
  - apply IH. by apply callback_shows.
Qed.

(** ** From the console to the handler *)

Lemma get_url_target_nonempty request target :
  get_url request = Ok target -> target <> [].
Proof.
  intros Hu. apply get_url_Ok_tokens in Hu as (method & rest & Ht).
  unfold request_line_tokens in Ht.
  destruct (split uCRLF request) as [|line0 more] eqn:Hs; [done|].
  assert (target ∈ split_ws isspace_cp line0) as Hin.
  { rewrite Ht. apply elem_of_cons. right. apply elem_of_cons. by left. }
  by apply (split_ws_tokens _ _ _ Hin).
Qed.

(** Blocking takes effect: once the server is started, after
    [add_blocked_url] on an entry that holds a target, with white space
    around it or not, already blocked or not, a request for that target is
    answered with the 403 response and nothing is fetched. *)
Theorem added_url_is_blocked text w blocked_urls env cache request :
  proxy_server w = Some blocked_urls ->
  decode (client_data env) = Ok request ->
  get_url request = Ok (strip isspace_cp text) ->
  let c := add_blocked_url text w in
  exists blocked_urls',
    proxy_server (console c) = Some blocked_urls'
    /\ raised c = Ok tt
    /\ handle_request blocked_urls' env cache
       = Result ([ERecv Client (client_data env); ELog (LogRequest request)]
                 ++ (if contains (U "CONNECT") request
                     then [ESend Client established] else [])
                 ++ [ESendAll Client blocked_response; ELog LogClosed;
                     EClose Client])
                (Ok tt) cache.
Proof.
  intros Hw Hd Hu. cbn zeta.
  pose proof (get_url_target_nonempty _ _ Hu) as Hne.
  unfold add_blocked_url. rewrite Hw.
  destruct (strip isspace_cp text) as [|ch url] eqn:Eu; [done|].
  destruct (decide (ch :: url ∈ blocked_urls)) as [Hin|Hnot].
  - rewrite bool_decide_eq_false_2 by auto. simpl.
    exists blocked_urls. split; [done|]. split; [done|].
    by apply (blocked_path _ _ _ _ (ch :: url)).
  - rewrite bool_decide_eq_true_2 by done. simpl.
    eexists. split; [done|]. split; [done|].
    apply (blocked_path _ _ _ _ (ch :: url)); [done..|].
    apply elem_of_union. left.
    by apply elem_of_singleton.
Qed.

Lemma added_url_is_blocked_witness :
  let w := {| proxy_server := Some ∅; blocked_listbox := [] |} in
  let env := sample_env sample_get sample_304 [] [] in
  let c := add_blocked_url (U "  http://example.com/ ") w in
  exists blocked_urls',
    proxy_server (console c) = Some blocked_urls'
    /\ raised c = Ok tt
    /\ handle_request blocked_urls' env ∅
       = Result [ERecv Client sample_get; ELog (LogRequest sample_get_text);
                 ESendAll Client blocked_response; ELog LogClosed;
                 EClose Client]
                (Ok tt) ∅.
Proof.
  intros w env c.
  apply (added_url_is_blocked (U "  http://example.com/ ") w ∅ env ∅
           sample_get_text); reflexivity.
Defined.

(** ** What the cache holds *)

Lemma keeps_dated_keeps {A} (m : M A) : keeps m -> keeps_dated m.
Proof. intros Hm c Hc. by rewrite Hm. Qed.

Lemma keeps_dated_bind {A B} (m : M A) (k : A -> M B) :
  keeps_dated m -> (forall a, keeps_dated (k a)) -> keeps_dated (m ≫= k).
Proof.
  intros Hm Hk c Hc. unfold mbind, M_bind. specialize (Hm c Hc).
  destruct (m c) as [ev [a| |] c1]; simpl in *; try done.
  by apply Hk.
Qed.

Lemma keeps_dated_lift {A B} (o : outcome A) (k : A -> M B) :
  (forall a, o = Ok a -> keeps_dated (k a)) -> keeps_dated (lift o ≫= k).
Proof.
  intros Hk c Hc. unfold mbind, M_bind, lift. simpl.
  destruct o as [a| |]; simpl; try done. by apply Hk.
Qed.

(** [get_last_modified] answers only from a Last-Modified line, and then
    the same whatever the clock says. *)
Lemma get_last_modified_Ok response now obj :
  get_last_modified response now = Ok obj ->
  (exists line, line ∈ split CRLF response
                /\ is_last_modified_line line = true)
  /\ (exists b, obj = PyBytes b)
  /\ forall now', get_last_modified response now' = Ok obj.
Proof.
  unfold get_last_modified.
  induction (split CRLF response) as [|line lines IH]; simpl; [done|].
  destruct (is_last_modified_line line) eqn:El.
  - intros Hv. split; [exists line; split; [by left|done]|].
    split; [|done].
    destruct (index (split1 (B ":") line) 1) as [value| |]; simpl in Hv;
      try done.
    injection Hv as <-. by eexists.
  - intros [(l & Hin & Hl) [Hb Hnow]]%IH.
    split; [exists l; split; [by right|done]|done].
Qed.

(** Lines 127-130 and 144-147 for a target that [get_url] answered. *)
Lemma keeps_dated_store request key response now latency :
  get_url request = Ok key ->
  keeps_dated
    (last_modified ← lift (get_last_modified response now);
     cache_set key (Entry response last_modified latency)).
Proof.
  intros Hu. apply keeps_dated_lift. intros obj Hobj c Hc.
  unfold cache_set. simpl. apply map_Forall_insert_2; [|done].
  destruct (get_last_modified_Ok _ _ _ Hobj) as (Hline & Hb & Hnow).
  destruct (get_url_clean _ _ Hu) as [Hclean _].
  split; [by eapply get_url_target_nonempty|]. by repeat split.
Qed.

Lemma handle_request_keeps_dated blocked_urls env :
  keeps_dated (handle_request blocked_urls env).
Proof.
  unfold handle_request. cbn zeta.
  apply keeps_dated_bind; [apply keeps_dated_keeps, keeps_recv|intros data].
  apply keeps_dated_bind; [apply keeps_dated_keeps, keeps_lift|intros request].
  apply keeps_dated_bind; [apply keeps_dated_keeps, keeps_emit|intros _].
  destruct (bool_decide (request = [])); [apply keeps_dated_keeps, keeps_emit|].
  apply keeps_dated_lift. intros target_url Hu.
  apply keeps_dated_bind; [apply keeps_dated_keeps, keeps_lift|intros host].
  apply keeps_dated_bind;
    [|intros _; apply keeps_dated_keeps; repeat keeps_step].
  destruct (bool_decide (target_url ∈ blocked_urls)).
  { apply keeps_dated_keeps. repeat keeps_step. by destruct (contains _ _). }
  apply keeps_dated_bind; [apply keeps_dated_keeps, keeps_cache_has|].
  intros [|].
  - apply keeps_dated_keeps.
    apply keeps_bind; [apply keeps_cache_get|intros e].
    apply keeps_bind; [apply keeps_lift|intros last_modified].
    apply keeps_bind; [apply keeps_forward_to_server|intros answer].
    apply keeps_bind; [apply keeps_lift|intros code].
    destruct (bool_decide (code = B "304")); [repeat keeps_step|].
    apply keeps_bind; [apply keeps_forward_to_server|intros response].
    apply keeps_encode_bytes.
  - destruct (contains (U "CONNECT") request).
    { apply keeps_dated_keeps, keeps_handle_https. }
    apply keeps_dated_bind;
      [apply keeps_dated_keeps, keeps_forward_to_server|intros response].
    apply keeps_dated_bind; [apply keeps_dated_keeps, keeps_emit|intros _].
    by eapply keeps_dated_store.
Qed.

(** From the empty cache of a new server, whatever connections are
    handled, one after the other: every entry the cache ever holds is stored under a request
    target (not empty, no white space) and holds a response with a
    Last-Modified line together with the value of that line, as bytes.  A
    response without that line is never cached, and
    [self.cache[target_url][1].decode()] on line 104 always finds a
    [bytes]. *)
Theorem cached_entries_are_dated blocked_urls connections :
  Forall (fun r : result unit =>
            forall key e, store r !! key = Some e -> dated key e)
         (start blocked_urls connections ∅).
Proof.
  assert (map_Forall dated (∅ : gmap str entry)) as Hinit
    by apply map_Forall_empty.
  revert Hinit. generalize (∅ : gmap str entry) as cache.
  induction connections as [|env later IH]; intros cache Hc; simpl;
    constructor.
  - by apply handle_request_keeps_dated.
  - by apply IH, handle_request_keeps_dated.
Qed.
(** ** How much of the request is read *)

Lemma no_client_read_bind {A B} (m : M A) (k : A -> M B) :
  no_client_read m -> (forall a, no_client_read (k a)) ->
  no_client_read (m ≫= k).
Proof.
  intros Hm Hk c data. unfold mbind, M_bind. specialize (Hm c data).
  destruct (m c) as [ev [a| |] c1]; simpl in *; try done.
  rewrite elem_of_app. intros [?|?]; [done|]. by eapply Hk.
Qed.

Lemma no_client_read_ret {A} (a : A) : no_client_read (mret a).
Proof. intros c data. apply not_elem_of_nil. Qed.

Lemma no_client_read_lift {A} (o : outcome A) : no_client_read (lift o).
Proof. intros c data. apply not_elem_of_nil. Qed.

Lemma no_client_read_cache_has key : no_client_read (cache_has key).
Proof. intros c data. apply not_elem_of_nil. Qed.

Lemma no_client_read_cache_get key : no_client_read (cache_get key).
Proof. intros c data. apply not_elem_of_nil. Qed.

Lemma no_client_read_cache_set key e : no_client_read (cache_set key e).
Proof. intros c data. apply not_elem_of_nil. Qed.

Lemma no_client_read_emit e :
  (forall data, e <> ERecv Client data) -> no_client_read (emit e).
Proof.
  intros He c data. simpl. rewrite list_elem_of_singleton.
  intros Heq. by apply (He data).
Qed.

Lemma no_client_read_origin answer : no_client_read (recv Origin answer).
Proof.
  apply no_client_read_bind; [by apply no_client_read_emit|].
  intros _ c data. apply not_elem_of_nil.
Qed.

Lemma no_client_read_recv_all_from chunks data :
  no_client_read (recv_all_from chunks data).
Proof.
  revert data. induction chunks as [|chunk chunks IH]; intros data;
    [intros c d; apply not_elem_of_nil|].
  simpl. apply no_client_read_bind; [apply no_client_read_origin|].
  intros [|b a]; [intros c d; apply not_elem_of_nil|apply IH].
Qed.

Ltac no_read_step :=
  first
    [ apply no_client_read_origin
    | apply no_client_read_recv_all_from
    | apply no_client_read_emit; intros ?; discriminate
    | apply no_client_read_ret | apply no_client_read_lift
    | apply no_client_read_cache_has | apply no_client_read_cache_get
    | apply no_client_read_cache_set
    | apply no_client_read_bind; [|intros ?] ].

Lemma no_client_read_forward_to_server env request conditional :
  no_client_read (forward_to_server env request conditional).
Proof.
  unfold forward_to_server, connect, sendall, close, recv_all.
  apply no_client_read_bind; [no_read_step|intros host].
  apply no_client_read_bind; [no_read_step|intros _].
  apply no_client_read_bind; [no_read_step|intros data].
  apply no_client_read_bind; [no_read_step|intros _].
  apply no_client_read_bind.
  - destruct conditional; no_read_step.
  - intros response. repeat no_read_step.
Qed.

(** Outside a tunnel the handler reads from the client once: the single
    [recv] of line 76, which returns at most [BUFFER] bytes.  Whatever the
    block list and the cache hold, for a request without the characters
    CONNECT there is no second read, so what does not arrive in the first
    [recv] is never part of the request. *)
Theorem client_read_once blocked_urls env cache request :
  decode (client_data env) = Ok request ->
  contains (U "CONNECT") request = false ->
  exists later,
    events (handle_request blocked_urls env cache)
    = ERecv Client (client_data env) :: later
    /\ forall data, ERecv Client data ∉ later.
Proof.
  intros Hd Hcon. unfold handle_request. cbn zeta. step. rewrite Hd. step.
  lazymatch goal with
  | |- exists later, events (after _ (after _ (?m ?c))) = _ /\ _ =>
      exists (events (m c)); split; [reflexivity|];
      cut (no_client_read m); [intros H; apply H|]
  end.
  rewrite Hcon. unfold _update_cb, sendall, send, close.
  apply no_client_read_bind; [no_read_step|intros _].
  case_bool_decide; [no_read_step|].
  apply no_client_read_bind; [no_read_step|intros target_url].
  apply no_client_read_bind; [no_read_step|intros target_host].
  apply no_client_read_bind; [|intros _; repeat no_read_step].
  case_bool_decide; [repeat no_read_step|].
  apply no_client_read_bind; [no_read_step|intros [|]].
  - apply no_client_read_bind; [no_read_step|intros e].
    apply no_client_read_bind; [no_read_step|intros last_modified].
    apply no_client_read_bind;
      [apply no_client_read_forward_to_server|intros answer].
    apply no_client_read_bind; [no_read_step|intros code].
    case_bool_decide; [repeat no_read_step|].
    apply no_client_read_bind;
      [apply no_client_read_forward_to_server|intros response].
    repeat no_read_step.
  - apply no_client_read_bind;
      [apply no_client_read_forward_to_server|intros response].
    repeat no_read_step.
Qed.

Lemma client_read_once_witness :
  exists later,
    events (handle_request ∅ (sample_env sample_get [] [sample_200; []] []) ∅)
    = ERecv Client sample_get :: later
    /\ forall data, ERecv Client data ∉ later.
Proof.
  apply (client_read_once ∅ (sample_env sample_get [] [sample_200; []] []) ∅
           sample_get_text); reflexivity.
Defined.

